(** * querier: a shallow embedding of the SQL statement builder

    The Go package [querier] (querybuilder.go) assembles the text of a
    parameterised SQL statement together with its positional arguments from
    a list of functional options.  Every option is a closure that mutates a
    [*Query]; here an option is a function from the accumulator to the
    updated accumulator, and the terminal builders thread the accumulator
    through the options in call order. *)

From Stdlib Require Import List String Ascii ZArith Arith Bool Lia.
Import ListNotations.
Open Scope string_scope.

(** ** Go runtime pieces the package relies on *)

(** [for i, x := range l { body }] with the loop state passed explicitly. *)
Fixpoint range_from {A S : Type} (body : nat -> A -> S -> S)
         (i : nat) (l : list A) (s : S) : S :=
  match l with
  | [] => s
  | x :: rest => range_from body (i + 1) rest (body i x s)
  end.

Definition range {A S : Type} (body : nat -> A -> S -> S) (l : list A) (s : S) : S :=
  range_from body 0 l s.

(** [strings.Replace(s, old, new, n)] for a non-empty [old] and [n >= 0]
    (the package calls it with [old = table + "."] and [n] 11 or 1): the
    first [n] non-overlapping occurrences of [old], found left to right,
    are replaced by [new].  [skip] counts the bytes of a matched occurrence
    that are still to be passed over. *)
Fixpoint replace_from (old new : string) (skip n : nat) (s : string) : string :=
  match s with
  | EmptyString => EmptyString
  | String c s' =>
      match skip with
      | S k => replace_from old new k n s'
      | O =>
          match n with
          | O => s
          | S n' =>
              if prefix old s
              then new ++ replace_from old new (String.length old - 1) n' s'
              else String c (replace_from old new 0 n s')
          end
      end
  end.

Definition Replace (s old new : string) (n : nat) : string :=
  replace_from old new 0 n s.

(** A value of Go's [any]: the builder stores and returns such values and
    never looks inside them. *)
Inductive any : Type :=
| AnyInt (z : Z)
| AnyString (s : string)
| AnyBool (b : bool)
| AnyNil.

(** ** Types and constants of the package *)

Definition DBTable := string.
Definition DBField := string.

Definition Count : DBField := "COUNT(*)".

Definition QueryOperation := string.

Definition Insert : QueryOperation := "INSERT INTO".
Definition Select : QueryOperation := "SELECT".
Definition Update : QueryOperation := "UPDATE".
Definition Delete : QueryOperation := "DELETE".

Definition JoinType := string.

Definition InnerJoin : JoinType := "INNER".
Definition LeftJoin : JoinType := "LEFT".
Definition RightJoin : JoinType := "RIGHT".
Definition CrossJoin : JoinType := "CROSS".
Definition FullJoin : JoinType := "FULL".

Definition OrderByType := string.

Definition Desc : OrderByType := "DESC".
Definition ASC : OrderByType := "ASC".

Definition DBOperation := string.

Definition NotEqual : DBOperation := "NOT EQUAL".
Definition Equal : DBOperation := "=".
Definition LessOrEqual : DBOperation := "<=".
Definition LessThan : DBOperation := "<".
Definition GreaterOrEqual : DBOperation := ">=".
Definition GreaterThan : DBOperation := ">".
Definition NotInt : DBOperation := "NOT IN".
Definition In : DBOperation := "IN".
Definition Like : DBOperation := "LIKE".

(** The accumulator.  [where_] is the Go field [where] (a reserved word
    here). *)
Record Query : Type := mkQuery {
  Table : DBTable;
  fields : list DBField;
  where_ : list string;
  params : list any;
  join : list string;
  aggregations : list string;
  aggregationParams : list any;
  sets : list string;
  setParams : list any
}.

(** [&Query{}] *)
Definition zeroQuery : Query := mkQuery "" [] [] [] [] [] [] [] [].

(** [&Query{Table: table, ...}] with the slices the builders allocate empty. *)
Definition newQuery (table : DBTable) : Query :=
  mkQuery table [] [] [] [] [] [] [] [].

Definition set_where (q : Query) (w : list string) : Query :=
  mkQuery (Table q) (fields q) w (params q) (join q)
          (aggregations q) (aggregationParams q) (sets q) (setParams q).

Definition set_params (q : Query) (p : list any) : Query :=
  mkQuery (Table q) (fields q) (where_ q) p (join q)
          (aggregations q) (aggregationParams q) (sets q) (setParams q).

Definition set_join (q : Query) (j : list string) : Query :=
  mkQuery (Table q) (fields q) (where_ q) (params q) j
          (aggregations q) (aggregationParams q) (sets q) (setParams q).

Definition set_aggregations (q : Query) (a : list string) : Query :=
  mkQuery (Table q) (fields q) (where_ q) (params q) (join q)
          a (aggregationParams q) (sets q) (setParams q).

Definition set_aggregationParams (q : Query) (p : list any) : Query :=
  mkQuery (Table q) (fields q) (where_ q) (params q) (join q)
          (aggregations q) p (sets q) (setParams q).

Definition set_sets (q : Query) (s : list string) : Query :=
  mkQuery (Table q) (fields q) (where_ q) (params q) (join q)
          (aggregations q) (aggregationParams q) s (setParams q).

Definition set_setParams (q : Query) (p : list any) : Query :=
  mkQuery (Table q) (fields q) (where_ q) (params q) (join q)
          (aggregations q) (aggregationParams q) (sets q) p.

(** [type QueryBuilderOption func(query *Query)]: the mutation of the
    pointed-to accumulator is the function's result. *)
Definition QueryBuilderOption := Query -> Query.

(** [for _, opt := range opts { opt(query) }] *)
Definition applyOpts (opts : list QueryBuilderOption) (query : Query) : Query :=
  range (fun _ opt query => opt query) opts query.

(** ** Terminal builders *)

Definition NewQuery (table : DBTable) (fields : list DBField)
           (opts : list QueryBuilderOption) : string * list any :=
  let query := applyOpts opts (newQuery table) in
  let res := Select in
  let res := if (List.length fields =? 0)%nat then res ++ " *" else res in
  let res :=
    range (fun i w res =>
             let res := res ++ (" " ++ w) in
             if negb (i =? List.length fields - 1)%nat then res ++ "," else res)
          fields res in
  let res := res ++ " FROM" in
  let res := res ++ (" " ++ table) in
  let res := range (fun _ join res => res ++ join) (join query) res in
  let resultParams : list any := [] in
  let res :=
    if (0 <? List.length (where_ query))%nat
    then
      range (fun i w res =>
               let res := res ++ w in
               if negb (i =? List.length (where_ query) - 1)%nat
               then res ++ " AND " else res)
            (where_ query) (res ++ " WHERE ")
    else res in
  let resultParams := (resultParams ++ params query)%list in
  let res :=
    if (0 <? List.length (aggregations query))%nat
    then
      range (fun i ag res =>
               let res := res ++ ag in
               if negb (i =? List.length (aggregations query) - 1)%nat
               then res ++ " " else res)
            (aggregations query) (res ++ " ")
    else res in
  let resultParams := (resultParams ++ aggregationParams query)%list in
  (res, params query).

Definition NewInsert (table : DBTable) (fields : list DBField) : string :=
  let res := Insert ++ " " ++ table ++ " (" in
  let values := " VALUES (" in
  let '(res, values) :=
    range (fun i w '(res, values) =>
             let res := res ++ Replace w (table ++ ".") "" 11 in
             let values := values ++ "?" in
             if negb (i =? List.length fields - 1)%nat
             then (res ++ ", ", values ++ ", ")
             else (res, values))
          fields (res, values) in
  let res := res ++ (")" ++ values ++ ")") in
  res.

Definition NewUpdate (table : DBTable)
           (opts : list QueryBuilderOption) : string * list any :=
  let query := applyOpts opts (newQuery table) in
  let res := Update in
  let res := res ++ (" " ++ table) in
  let resultParams : list any := [] in
  let res := res ++ " SET" in
  let res :=
    range (fun i w res =>
             let res := res ++ (" " ++ Replace w (table ++ ".") "" 1 ++ " = ?") in
             if negb (i =? List.length (sets query) - 1)%nat then res ++ "," else res)
          (sets query) res in
  let resultParams := (resultParams ++ setParams query)%list in
  let res := range (fun _ join res => res ++ join) (join query) res in
  let res :=
    if (0 <? List.length (where_ query))%nat
    then
      range (fun i w res =>
               let res := res ++ w in
               if negb (i =? List.length (where_ query) - 1)%nat
               then res ++ " AND " else res)
            (where_ query) (res ++ " WHERE ")
    else res in
  let resultParams := (resultParams ++ params query)%list in
  let res :=
    if (0 <? List.length (aggregations query))%nat
    then
      range (fun i ag res =>
               let res := res ++ ag in
               if negb (i =? List.length (aggregations query) - 1)%nat
               then res ++ " " else res)
            (aggregations query) (res ++ " ")
    else res in
  let resultParams := (resultParams ++ aggregationParams query)%list in
  (res, resultParams).

Definition NewDelete (table : DBTable)
           (opts : list QueryBuilderOption) : string * list any :=
  let query := applyOpts opts (newQuery table) in
  let res := Delete in
  let res := res ++ " FROM" in
  let res := res ++ (" " ++ table) in
  let resultParams : list any := [] in
  let res := range (fun _ join res => res ++ join) (join query) res in
  let res :=
    if (0 <? List.length (where_ query))%nat
    then
      range (fun i w res =>
               let res := res ++ w in
               if negb (i =? List.length (where_ query) - 1)%nat
               then res ++ " AND " else res)
            (where_ query) (res ++ " WHERE ")
    else res in
  let resultParams := (resultParams ++ params query)%list in
  let res :=
    if (0 <? List.length (aggregations query))%nat
    then
      range (fun i ag res =>
               let res := res ++ ag in
               if negb (i =? List.length (aggregations query) - 1)%nat
               then res ++ " " else res)
            (aggregations query) (res ++ " ")
    else res in
  let resultParams := (resultParams ++ aggregationParams query)%list in
  (res, params query).

(** ** Fragment contributors *)

(** [(q *Query) buildWhere]: returns the fragment and the accumulator with
    the values appended to [params].  The Go local [where] is [where'] and
    the local [join] of [Join] is [joinText] (the field keeps the name). *)
Definition buildWhere (q : Query) (field : DBField) (operation : DBOperation)
           (ps : list any) : string * Query :=
  let where' := field ++ " " ++ operation in
  if (List.length ps =? 1)%nat then
    let where' := where' ++ " ?" in
    let q := set_params q (params q ++ [nth 0 ps AnyNil]) in
    (where', q)
  else if (1 <? List.length ps)%nat then
    let where' := where' ++ " (" in
    let '(where', q) :=
      range (fun i param '(where', q) =>
               let where' := where' ++ "?" in
               let q := set_params q (params q ++ [param]) in
               if negb (i =? List.length ps - 1)%nat
               then (where' ++ ",", q) else (where', q))
            ps (where', q) in
    let where' := where' ++ ")" in
    (where', q)
  else (where', q).

Definition Where (field : DBField) (operation : DBOperation)
           (ps : list any) : QueryBuilderOption :=
  fun q =>
    let '(where', q) := buildWhere q field operation ps in
    set_where q (where_ q ++ [where']).

Definition And (opts : list QueryBuilderOption) : QueryBuilderOption :=
  fun q => range (fun _ opt q => opt q) opts q.

Definition Or (opts : list QueryBuilderOption) : QueryBuilderOption :=
  fun q =>
    let temp := range (fun _ opt temp => opt temp) opts zeroQuery in
    let where' := "" in
    let where' :=
      range (fun i w where' =>
               let where' := where' ++ w in
               if negb (i =? List.length (where_ temp) - 1)%nat
               then where' ++ " OR " else where')
            (where_ temp) where' in
    let q := set_where q (where_ q ++ [where']) in
    set_params q (params q ++ params temp).

(** Go's [Set] ([Set] is a sort here). *)
Definition Set_ (field : DBField) (value : any) : QueryBuilderOption :=
  fun q =>
    let q := set_sets q (sets q ++ [field]) in
    set_setParams q (setParams q ++ [value]).

Definition Raw (query : string) (ps : list any) : QueryBuilderOption :=
  fun q =>
    let q := set_aggregations q (aggregations q ++ [query]) in
    set_aggregationParams q (aggregationParams q ++ ps).

Definition RawWhere (query : string) (ps : list any) : QueryBuilderOption :=
  fun q =>
    let q := set_where q (where_ q ++ [query]) in
    set_params q (params q ++ ps).

Definition Join (table : DBTable) (joinType : JoinType)
           (on equal : DBField) : QueryBuilderOption :=
  fun query =>
    let joinText := " " ++ joinType ++ " JOIN " ++ table in
    let joinText :=
      if negb (on =? "") && negb (equal =? "")
      then joinText ++ (" ON " ++ on ++ " = " ++ equal)
      else joinText in
    set_join query (join query ++ [joinText]).

Definition Limit (limit : Z) : QueryBuilderOption :=
  fun query =>
    let query := set_aggregations query (aggregations query ++ ["LIMIT ?"]) in
    set_aggregationParams query (aggregationParams query ++ [AnyInt limit]).

Definition OrderBy (field : DBField) (order : OrderByType) : QueryBuilderOption :=
  fun query =>
    set_aggregations query
      (aggregations query ++ ["ORDER BY " ++ field ++ " " ++ order]).

Definition First : QueryBuilderOption :=
  fun query => set_aggregations query (aggregations query ++ ["LIMIT 1"]).

(** Helpers of the package's test file. *)
Definition userWithID (id : Z) : QueryBuilderOption :=
  fun query =>
    let query := set_where query (where_ query ++ ["users.id = ?"]) in
    set_params query (params query ++ [AnyInt id]).

Definition setUserName (name : string) : QueryBuilderOption :=
  fun query =>
    let query := set_sets query (sets query ++ ["name"]) in
    set_params query (params query ++ [AnyString name]).

(** ** What the statements below are phrased with *)

(** The number of [?] bytes of a text. *)
Fixpoint placeholders (s : string) : nat :=
  match s with
  | EmptyString => 0
  | String c s' => (if Ascii.eqb c "?"%char then 1 else 0) + placeholders s'
  end.

(** The fragments of a list carry this many [?] in total. *)
Definition placeholders_in (l : list string) : nat :=
  list_sum (map placeholders l).

(** [strings.Contains(s, sub)]. *)
Fixpoint Contains (s sub : string) : bool :=
  match s with
  | EmptyString => prefix sub EmptyString
  | String _ s' => prefix sub s || Contains s' sub
  end.

(** The field list of a retrieval. *)
Definition fieldList (fields : list DBField) : string :=
  match fields with
  | [] => "*"
  | _ => concat ", " fields
  end.

(** The WHERE clause of a list of predicate fragments. *)
Definition whereClause (where' : list string) : string :=
  match where' with
  | [] => ""
  | _ => " WHERE " ++ concat " AND " where'
  end.

(** The trailing clauses. *)
Definition trailingClause (aggregations : list string) : string :=
  match aggregations with
  | [] => ""
  | _ => " " ++ concat " " aggregations
  end.

(** The assignment list of a mutation over [table]. *)
Definition setClause (table : DBTable) (sets : list string) : string :=
  match sets with
  | [] => ""
  | _ =>
      " " ++ concat ", "
                    (map (fun w => Replace w (table ++ ".") "" 1 ++ " = ?") sets)
  end.

(** The fragment a predicate contributor renders. *)
Definition whereText (field : DBField) (operation : DBOperation)
           (ps : list any) : string :=
  match ps with
  | [] => field ++ " " ++ operation
  | [_] => field ++ " " ++ operation ++ " ?"
  | _ =>
      field ++ " " ++ operation ++ " ("
            ++ concat "," (repeat "?" (List.length ps)) ++ ")"
  end.

(** A predicate contributor with one value per entry. *)
Definition oneValue (p : DBField * DBOperation * any) : QueryBuilderOption :=
  let '(field, operation, v) := p in Where field operation [v].

Definition valueOf (p : DBField * DBOperation * any) : any :=
  let '(_, _, v) := p in v.

(** [s[n:]], empty when [s] is shorter than [n]. *)
Fixpoint drop (n : nat) (s : string) : string :=
  match n, s with
  | O, _ => s
  | S _, EmptyString => EmptyString
  | S k, String _ s' => drop k s'
  end.

(** The qualifier [table.] taken off the front of a field name, once, and
    only when the name starts with it: the stripping in the words of the
    specification. *)
Definition stripQualifier (table : DBTable) (w : DBField) : string :=
  if prefix (table ++ ".") w
  then drop (String.length (table ++ ".")) w
  else w.

(** The insertion statement in the words of the specification. *)
Definition NewInsert_spec (table : DBTable) (fields : list DBField) : string :=
  "INSERT INTO " ++ table ++ " ("
    ++ concat ", " (map (stripQualifier table) fields)
    ++ ") VALUES ("
    ++ concat ", " (repeat "?" (List.length fields)) ++ ")".

(** The mutation in the words of the specification: every assignment is
    [field = ?], the field with a leading [table.] taken off as
    [stripQualifier] does (a name that does not start with the qualifier is
    emitted as it was given). *)
Definition NewUpdate_spec (table : DBTable)
           (opts : list QueryBuilderOption) : string * list any :=
  let q := applyOpts opts (newQuery table) in
  ("UPDATE " ++ table ++ " SET"
     ++ match sets q with
        | [] => ""
        | _ =>
            " " ++ concat ", "
                          (map (fun w => stripQualifier table w ++ " = ?")
                               (sets q))
        end
     ++ concat "" (join q)
     ++ whereClause (where_ q)
     ++ trailingClause (aggregations q),
   (setParams q ++ params q ++ aggregationParams q)%list).

(** An accumulator whose fragments carry as many [?] as it holds
    arguments for them, and whose join fragments carry none. *)
Definition balanced (q : Query) : Prop :=
  placeholders_in (where_ q) = List.length (params q)
  /\ placeholders_in (aggregations q) = List.length (aggregationParams q)
  /\ placeholders_in (join q) = 0.

(** A contributor that keeps a balanced accumulator balanced. *)
Definition Aligned (opt : QueryBuilderOption) : Prop :=
  forall q, balanced q -> balanced (opt q).

(** [toAnySlice] of the test file: [make([]any, len(s))] filled by index.
    [inj] is the boxing of a [T] into [any]; [store] is [result[i] = v]
    (an index out of range leaves the slice as it is: the loop never
    produces one). *)
Fixpoint store {A : Type} (i : nat) (v : A) (l : list A) : list A :=
  match l, i with
  | [], _ => []
  | _ :: t, O => v :: t
  | x :: t, S k => x :: store k v t
  end.

Definition toAnySlice {T : Type} (inj : T -> any) (s : list T) : list any :=
  let result := repeat AnyNil (List.length s) in
  range (fun i v result => store i (inj v) result) s result.

(** The fragment of a one-value predicate. *)
Definition oneValueText (p : DBField * DBOperation * any) : string :=
  let '(field, operation, _) := p in field ++ " " ++ operation ++ " ?".

(** The fragment a join contributor renders. *)
Definition joinFragment (table : DBTable) (joinType : JoinType)
           (on equal : DBField) : string :=
  if (on =? "") || (equal =? "")
  then " " ++ joinType ++ " JOIN " ++ table
  else " " ++ joinType ++ " JOIN " ++ table ++ " ON " ++ on ++ " = " ++ equal.

(** [q'] holds everything [q] holds, in the same order, and possibly more
    behind it; the entity and the field list are those of [q]. *)
Definition extends (q q' : Query) : Prop :=
  Table q' = Table q
  /\ fields q' = fields q
  /\ (exists l, where_ q' = (where_ q ++ l)%list)
  /\ (exists l, params q' = (params q ++ l)%list)
  /\ (exists l, join q' = (join q ++ l)%list)
  /\ (exists l, aggregations q' = (aggregations q ++ l)%list)
  /\ (exists l, aggregationParams q' = (aggregationParams q ++ l)%list)
  /\ (exists l, sets q' = (sets q ++ l)%list)
  /\ (exists l, setParams q' = (setParams q ++ l)%list).

(** A contributor that only ever appends. *)
Definition Extending (opt : QueryBuilderOption) : Prop :=
  forall q, extends q (opt q).

(** An accumulator whose assignments are as many as their arguments, the
    assigned names carrying no [?] of their own. *)
Definition setsBalanced (q : Query) : Prop :=
  List.length (sets q) = List.length (setParams q)
  /\ placeholders_in (sets q) = 0.

(** A contributor that keeps an accumulator balanced in its predicates,
    trailing clauses, joins and assignments. *)
Definition AlignedUpdate (opt : QueryBuilderOption) : Prop :=
  forall q, balanced q /\ setsBalanced q ->
            balanced (opt q) /\ setsBalanced (opt q).

(** The four sequences of the accumulator a contributor can append to. *)
Inductive kind : Type := Predicate | Joining | Assignment | Trailing.

(** A contributor that does nothing but append one fragment, with its
    values, to the sequence of kind [k]. *)
Definition appendsTo (k : kind) (opt : QueryBuilderOption) : Prop :=
  match k with
  | Predicate => exists text ps, forall q, opt q = RawWhere text ps q
  | Joining => exists text, forall q, opt q = set_join q (join q ++ [text])
  | Assignment => exists field value, forall q, opt q = Set_ field value q
  | Trailing => exists text ps, forall q, opt q = Raw text ps q
  end.

(** An assignment contributor per entry of a list of names and values,
    the names qualified by [table.] or given as they are. *)
Definition setQualified (table : DBTable) (p : DBField * any)
  : QueryBuilderOption :=
  Set_ (table ++ "." ++ fst p) (snd p).

(** A raw trailing contributor per entry of a list of texts and values. *)
Definition rawOf (p : string * list any) : QueryBuilderOption :=
  Raw (fst p) (snd p).

(** A join contributor per entry of a list of joins. *)
Definition joinOf (p : DBTable * JoinType * DBField * DBField)
  : QueryBuilderOption :=
  let '(table, joinType, on, equal) := p in Join table joinType on equal.

Definition joinFragmentOf (p : DBTable * JoinType * DBField * DBField)
  : string :=
  let '(table, joinType, on, equal) := p in
  joinFragment table joinType on equal.

(** ** Strings *)

Lemma append_nil_right (s : string) : s ++ "" = s.
Proof. induction s as [|c s IH]; simpl; [reflexivity | now rewrite IH]. Qed.

Lemma append_assoc (a b c : string) : (a ++ b) ++ c = a ++ (b ++ c).
Proof. induction a as [|x a IH]; simpl; [reflexivity | now rewrite IH]. Qed.

Lemma placeholders_append (a b : string) :
  placeholders (a ++ b) = placeholders a + placeholders b.
Proof. induction a as [|x a IH]; simpl; [reflexivity | rewrite IH; lia]. Qed.

Lemma placeholders_in_app (l1 l2 : list string) :
  placeholders_in (l1 ++ l2) = placeholders_in l1 + placeholders_in l2.
Proof. unfold placeholders_in. now rewrite map_app, list_sum_app. Qed.

Lemma placeholders_concat (sep : string) (l : list string) :
  placeholders sep = 0 ->
  placeholders (concat sep l) = placeholders_in l.
Proof.
  intros Hsep. induction l as [|w l IH]; [reflexivity|].
  destruct l as [|w' l].
  - unfold placeholders_in. simpl. lia.
  - change (concat sep (w :: w' :: l)) with (w ++ sep ++ concat sep (w' :: l)).
    rewrite !placeholders_append, IH, Hsep.
    unfold placeholders_in. simpl. lia.
Qed.

(** ** The loops *)

Lemma range_apply (opts : list QueryBuilderOption) (q : Query) :
  range (fun _ opt q => opt q) opts q = fold_left (fun q opt => opt q) opts q.
Proof.
  unfold range. generalize 0 as i. revert q.
  induction opts as [|o opts IH]; intros q i; simpl; [reflexivity | apply IH].
Qed.

Lemma range_concat (l : list string) (res : string) :
  range (fun _ w res => res ++ w) l res = res ++ concat "" l.
Proof.
  unfold range. generalize 0 as i. revert res.
  induction l as [|w l IH]; intros res i; simpl.
  - now rewrite append_nil_right.
  - rewrite IH, append_assoc. destruct l; simpl; [|reflexivity].
    now rewrite !append_nil_right.
Qed.

(** The loop shape the builders use for every separated list: append the
    rendering of the element, then the separator unless the index is the
    last one. *)
Lemma range_from_join {A : Type} (f : A -> string) (sep : string) (n : nat) :
  forall (l : list A) (i : nat) (res : string),
    i + List.length l = n ->
    range_from (fun i w res =>
                  if negb (i =? n - 1)%nat then (res ++ f w) ++ sep
                  else res ++ f w) i l res
    = res ++ concat sep (map f l).
Proof.
  induction l as [|w l IH]; intros i res Hn; simpl.
  - now rewrite append_nil_right.
  - destruct l as [|w' l].
    + simpl in *. replace (i =? n - 1)%nat with true
        by (symmetry; apply Nat.eqb_eq; lia).
      reflexivity.
    + replace (i =? n - 1)%nat with false
        by (symmetry; apply Nat.eqb_neq; simpl in Hn; lia).
      cbn [negb]. rewrite IH by (simpl in *; lia).
      cbn [map]. now rewrite !append_assoc.
Qed.

Lemma range_join {A : Type} (f : A -> string) (sep : string)
      (l : list A) (res : string) :
  range (fun i w res =>
           if negb (i =? List.length l - 1)%nat then (res ++ f w) ++ sep
           else res ++ f w) l res
  = res ++ concat sep (map f l).
Proof. unfold range. now apply range_from_join. Qed.

Lemma concat_prefixed {A : Type} (p sep : string) (g : A -> string) (l : list A) :
  l <> [] ->
  concat sep (map (fun w => p ++ g w) l) = p ++ concat (sep ++ p) (map g l).
Proof.
  induction l as [|w l IH]; intros Hl; [congruence|].
  destruct l as [|w' l]; [reflexivity|].
  change (map (fun w => p ++ g w) (w :: w' :: l))
    with ((p ++ g w) :: map (fun w => p ++ g w) (w' :: l)).
  change (map g (w :: w' :: l)) with (g w :: map g (w' :: l)).
  change (concat sep ((p ++ g w) :: map (fun w => p ++ g w) (w' :: l)))
    with ((p ++ g w) ++ sep ++ concat sep (map (fun w => p ++ g w) (w' :: l))).
  change (concat (sep ++ p) (g w :: map g (w' :: l)))
    with (g w ++ (sep ++ p) ++ concat (sep ++ p) (map g (w' :: l))).
  rewrite IH by discriminate. now rewrite !append_assoc.
Qed.

Lemma map_const_repeat {A B : Type} (b : B) (l : list A) :
  map (fun _ => b) l = repeat b (List.length l).
Proof. induction l as [|x l IH]; simpl; [reflexivity | now rewrite IH]. Qed.

Lemma range_from_cons {A S : Type} (body : nat -> A -> S -> S)
      (i : nat) (x : A) (rest : list A) (s : S) :
  range_from body i (x :: rest) s = range_from body (i + 1) rest (body i x s).
Proof. reflexivity. Qed.

Lemma range_from_insert (table : DBTable) (n : nat) :
  forall (l : list DBField) (i : nat) (res values : string),
    i + List.length l = n ->
    range_from (fun i w '(res, values) =>
                  if negb (i =? n - 1)%nat
                  then ((res ++ Replace w (table ++ ".") "" 11) ++ ", ",
                        (values ++ "?") ++ ", ")
                  else (res ++ Replace w (table ++ ".") "" 11, values ++ "?"))
               i l (res, values)
    = (res ++ concat ", " (map (fun w => Replace w (table ++ ".") "" 11) l),
       values ++ concat ", " (map (fun _ => "?") l)).
Proof.
  induction l as [|w l IH]; intros i res values Hn.
  - simpl. now rewrite !append_nil_right.
  - destruct l as [|w' l].
    + simpl in *. replace (i =? n - 1)%nat with true
        by (symmetry; apply Nat.eqb_eq; lia).
      reflexivity.
    + rewrite range_from_cons. cbv beta iota.
      replace (i =? n - 1)%nat with false
        by (symmetry; apply Nat.eqb_neq; simpl in Hn; lia).
      cbn [negb]. rewrite IH by (simpl in *; lia).
      cbn [map]. now rewrite !append_assoc.
Qed.

Lemma range_from_buildWhere (n : nat) :
  forall (ps : list any) (i : nat) (where' : string) (q : Query),
    i + List.length ps = n ->
    range_from (fun i param '(where', q) =>
                  if negb (i =? n - 1)%nat
                  then ((where' ++ "?") ++ ",",
                        set_params q (params q ++ [param]))
                  else (where' ++ "?", set_params q (params q ++ [param])))
               i ps (where', q)
    = (where' ++ concat "," (map (fun _ => "?") ps),
       set_params q (params q ++ ps)).
Proof.
  induction ps as [|p ps IH]; intros i where' q Hn.
  - simpl. rewrite append_nil_right, app_nil_r. now destruct q.
  - destruct ps as [|p' ps].
    + simpl in *. replace (i =? n - 1)%nat with true
        by (symmetry; apply Nat.eqb_eq; lia).
      reflexivity.
    + rewrite range_from_cons. cbv beta iota.
      replace (i =? n - 1)%nat with false
        by (symmetry; apply Nat.eqb_neq; simpl in Hn; lia).
      cbn [negb]. rewrite IH by (simpl in *; lia).
      cbn [map]. rewrite !append_assoc.
      unfold set_params; cbn [params Table fields where_ join aggregations
                                     aggregationParams sets setParams].
      now rewrite <- app_assoc.
Qed.

(** ** The contributors, as equations *)

Lemma applyOpts_fold (opts : list QueryBuilderOption) (q : Query) :
  applyOpts opts q = fold_left (fun q opt => opt q) opts q.
Proof. apply range_apply. Qed.

Lemma applyOpts_nil (q : Query) : applyOpts [] q = q.
Proof. reflexivity. Qed.

Lemma applyOpts_cons (o : QueryBuilderOption) (opts : list QueryBuilderOption)
      (q : Query) :
  applyOpts (o :: opts) q = applyOpts opts (o q).
Proof. now rewrite !applyOpts_fold. Qed.

Lemma applyOpts_app (o1 o2 : list QueryBuilderOption) (q : Query) :
  applyOpts (o1 ++ o2) q = applyOpts o2 (applyOpts o1 q).
Proof. rewrite !applyOpts_fold. apply fold_left_app. Qed.

Lemma And_applyOpts (opts : list QueryBuilderOption) (q : Query) :
  And opts q = applyOpts opts q.
Proof. reflexivity. Qed.

Lemma Where_RawWhere (field : DBField) (operation : DBOperation)
      (ps : list any) (q : Query) :
  Where field operation ps q = RawWhere (whereText field operation ps) ps q.
Proof.
  unfold Where, buildWhere, RawWhere, whereText.
  destruct ps as [|p [|p' ps]].
  - cbn. rewrite app_nil_r. now destruct q.
  - cbn. now rewrite !append_assoc.
  - cbn [List.length Nat.eqb Nat.ltb Nat.leb].
    unfold range. cbv zeta.
    rewrite (range_from_buildWhere (List.length (p :: p' :: ps)))
      by reflexivity.
    rewrite map_const_repeat, !append_assoc. reflexivity.
Qed.

Lemma Or_RawWhere (opts : list QueryBuilderOption) (q : Query) :
  Or opts q
  = RawWhere (concat " OR " (where_ (applyOpts opts zeroQuery)))
             (params (applyOpts opts zeroQuery)) q.
Proof.
  unfold Or, RawWhere. cbv zeta.
  fold (applyOpts opts zeroQuery).
  rewrite (range_join (fun w => w) " OR ").
  now rewrite map_id.
Qed.

(** ** The terminal builders, as equations *)

(** The guarded loop that renders the WHERE clause and the trailing
    clauses in the three option-taking builders. *)
Lemma guarded_join (lead sep : string) (l : list string) (res : string) :
  (if (0 <? List.length l)%nat
   then range (fun i w res =>
                 if negb (i =? List.length l - 1)%nat then (res ++ w) ++ sep
                 else res ++ w) l (res ++ lead)
   else res)
  = res ++ match l with [] => "" | _ => lead ++ concat sep l end.
Proof.
  destruct l as [|w l].
  - simpl. now rewrite append_nil_right.
  - change (0 <? List.length (w :: l))%nat with true. cbv iota.
    rewrite (range_join (fun w => w) sep (w :: l)).
    now rewrite map_id, append_assoc.
Qed.

Lemma NewQuery_render (table : DBTable) (fields : list DBField)
      (opts : list QueryBuilderOption) :
  NewQuery table fields opts
  = ("SELECT " ++ fieldList fields ++ " FROM " ++ table
       ++ concat "" (join (applyOpts opts (newQuery table)))
       ++ whereClause (where_ (applyOpts opts (newQuery table)))
       ++ trailingClause (aggregations (applyOpts opts (newQuery table))),
     params (applyOpts opts (newQuery table))).
Proof.
  unfold NewQuery. cbv zeta. f_equal.
  rewrite (guarded_join " " " "), (guarded_join " WHERE " " AND ").
  rewrite range_concat.
  fold (whereClause (where_ (applyOpts opts (newQuery table)))).
  fold (trailingClause (aggregations (applyOpts opts (newQuery table)))).
  rewrite (range_join (fun w => " " ++ w) "," fields).
  destruct fields as [|f fields].
  - cbn. now rewrite !append_assoc.
  - change (List.length (f :: fields) =? 0)%nat with false. cbv iota.
    rewrite (concat_prefixed " " "," (fun w => w)) by discriminate.
    rewrite map_id. unfold fieldList, Select.
    rewrite !append_assoc. reflexivity.
Qed.

Lemma NewDelete_render (table : DBTable) (opts : list QueryBuilderOption) :
  NewDelete table opts
  = ("DELETE FROM " ++ table
       ++ concat "" (join (applyOpts opts (newQuery table)))
       ++ whereClause (where_ (applyOpts opts (newQuery table)))
       ++ trailingClause (aggregations (applyOpts opts (newQuery table))),
     params (applyOpts opts (newQuery table))).
Proof.
  unfold NewDelete. cbv zeta. f_equal.
  rewrite (guarded_join " " " "), (guarded_join " WHERE " " AND ").
  rewrite range_concat.
  fold (whereClause (where_ (applyOpts opts (newQuery table)))).
  fold (trailingClause (aggregations (applyOpts opts (newQuery table)))).
  unfold Delete. rewrite !append_assoc. reflexivity.
Qed.

Lemma NewUpdate_render (table : DBTable) (opts : list QueryBuilderOption) :
  NewUpdate table opts
  = ("UPDATE " ++ table ++ " SET"
       ++ setClause table (sets (applyOpts opts (newQuery table)))
       ++ concat "" (join (applyOpts opts (newQuery table)))
       ++ whereClause (where_ (applyOpts opts (newQuery table)))
       ++ trailingClause (aggregations (applyOpts opts (newQuery table))),
     (setParams (applyOpts opts (newQuery table))
        ++ params (applyOpts opts (newQuery table))
        ++ aggregationParams (applyOpts opts (newQuery table)))%list).
Proof.
  unfold NewUpdate. cbv zeta. f_equal.
  - rewrite (guarded_join " " " "), (guarded_join " WHERE " " AND ").
    rewrite range_concat.
    fold (whereClause (where_ (applyOpts opts (newQuery table)))).
    fold (trailingClause (aggregations (applyOpts opts (newQuery table)))).
    rewrite (range_join
               (fun w => " " ++ Replace w (table ++ ".") "" 1 ++ " = ?") ",").
    unfold setClause.
    destruct (sets (applyOpts opts (newQuery table))) as [|s ss].
    + cbn. now rewrite !append_assoc.
    + rewrite (concat_prefixed " " ","
                 (fun w => Replace w (table ++ ".") "" 1 ++ " = ?"))
        by discriminate.
      unfold Update. rewrite !append_assoc. reflexivity.
  - now rewrite <- app_assoc.
Qed.

Lemma NewInsert_render (table : DBTable) (fields : list DBField) :
  NewInsert table fields
  = "INSERT INTO " ++ table ++ " ("
      ++ concat ", " (map (fun w => Replace w (table ++ ".") "" 11) fields)
      ++ ") VALUES ("
      ++ concat ", " (repeat "?" (List.length fields)) ++ ")".
Proof.
  unfold NewInsert, range. cbv zeta.
  rewrite (range_from_insert table (List.length fields)) by reflexivity.
  rewrite map_const_repeat. unfold Insert.
  rewrite !append_assoc. reflexivity.
Qed.

Lemma RawWhere_fields (text : string) (ps : list any) (q : Query) :
  RawWhere text ps q
  = mkQuery (Table q) (fields q) (where_ q ++ [text]) (params q ++ ps)
            (join q) (aggregations q) (aggregationParams q)
            (sets q) (setParams q).
Proof. reflexivity. Qed.

Lemma params_oneValue (l : list (DBField * DBOperation * any)) (q : Query) :
  params (applyOpts (map oneValue l) q) = (params q ++ map valueOf l)%list.
Proof.
  revert q. induction l as [|[[f op] v] l IH]; intros q.
  - cbn. now rewrite app_nil_r.
  - cbn [map]. rewrite applyOpts_cons, IH.
    unfold oneValue at 1. rewrite Where_RawWhere, RawWhere_fields.
    cbn [params valueOf]. now rewrite <- app_assoc.
Qed.

Lemma prefix_append (a b : string) : prefix a (a ++ b) = true.
Proof.
  induction a as [|c a IH]; simpl.
  - now destruct b.
  - destruct (ascii_dec c c); [assumption | congruence].
Qed.

(** ** The predicate contributor *)

(** C3: [Where(field, operation, params...)] appends exactly one predicate
    fragment and the values in call order, touching nothing else.  With no
    value the fragment is [field operation]; with one value it is
    [field operation ?]; with k > 1 values it is [field operation (]
    followed by k [?] separated by commas and a closing [)]. *)
Theorem Where_appends_fragment :
  forall (field : DBField) (operation : DBOperation) (q : Query),
    (forall ps,
        Where field operation ps q
        = mkQuery (Table q) (fields q)
                  (where_ q ++ [whereText field operation ps])
                  (params q ++ ps)
                  (join q) (aggregations q) (aggregationParams q)
                  (sets q) (setParams q))
    /\ whereText field operation [] = field ++ " " ++ operation
    /\ (forall v,
           whereText field operation [v] = field ++ " " ++ operation ++ " ?")
    /\ (forall v1 v2 vs,
           whereText field operation (v1 :: v2 :: vs)
           = field ++ " " ++ operation ++ " ("
               ++ concat "," (repeat "?" (2 + List.length vs)) ++ ")")
    /\ (forall k, placeholders (concat "," (repeat "?" k)) = k).
Proof.
  intros field operation q. split; [|split; [|split; [|split]]].
  - intros ps. now rewrite Where_RawWhere, RawWhere_fields.
  - reflexivity.
  - reflexivity.
  - reflexivity.
  - intros k. rewrite placeholders_concat by reflexivity.
    induction k as [|k IH]; [reflexivity|].
    unfold placeholders_in in *. simpl. now rewrite IH.
Qed.

(** C10: a predicate on [NotEqual] with one value renders the fragment
    [f NOT EQUAL ?]: the token of the not-equal operator is the words
    NOT EQUAL, while the other eight operators are rendered as the SQL
    tokens =, <=, <, >=, >, NOT IN, IN and LIKE. *)
Theorem Where_NotEqual_token :
  forall (f : DBField) (v : any) (q : Query),
    where_ (Where f NotEqual [v] q) = (where_ q ++ [(f ++ " NOT EQUAL ?")%string])%list
    /\ params (Where f NotEqual [v] q) = (params q ++ [v])%list
    /\ map (fun op => where_ (Where f op [v] zeroQuery))
           [Equal; LessOrEqual; LessThan; GreaterOrEqual; GreaterThan;
            NotInt; In; Like]
       = map (fun token => [f ++ " " ++ token ++ " ?"])
             ["="; "<="; "<"; ">="; ">"; "NOT IN"; "IN"; "LIKE"]
    /\ NotEqual <> "<>" /\ NotEqual <> "!=".
Proof.
  intros f v q. split; [|split; [|split; [|split]]].
  - now rewrite Where_RawWhere.
  - now rewrite Where_RawWhere.
  - cbn [map]. rewrite !Where_RawWhere. reflexivity.
  - discriminate.
  - discriminate.
Qed.

(** ** Conjunction and disjunction *)

Lemma applyOpts_And_inline (pre opts post : list QueryBuilderOption)
      (q : Query) :
  applyOpts (pre ++ And opts :: post) q = applyOpts (pre ++ opts ++ post) q.
Proof.
  rewrite (applyOpts_app pre (And opts :: post)), applyOpts_cons.
  change (And opts (applyOpts pre q)) with (applyOpts opts (applyOpts pre q)).
  now rewrite (applyOpts_app pre (opts ++ post)), (applyOpts_app opts post).
Qed.

(** C7: [And(opts...)] leaves the accumulator as applying [opts] one after
    the other does, so a terminal builder returns the same text and
    arguments for [And(opts...)] as for [opts] listed in its place. *)
Theorem And_is_inline :
  forall (opts : list QueryBuilderOption),
    (forall q, And opts q = fold_left (fun q opt => opt q) opts q)
    /\ (forall table fields pre post,
           NewQuery table fields (pre ++ And opts :: post)
           = NewQuery table fields (pre ++ opts ++ post))
    /\ (forall table pre post,
           NewUpdate table (pre ++ And opts :: post)
           = NewUpdate table (pre ++ opts ++ post))
    /\ (forall table pre post,
           NewDelete table (pre ++ And opts :: post)
           = NewDelete table (pre ++ opts ++ post)).
Proof.
  intros opts. split; [|split; [|split]].
  - intros q. change (And opts q) with (applyOpts opts q).
    apply applyOpts_fold.
  - intros. now rewrite !NewQuery_render, applyOpts_And_inline.
  - intros. now rewrite !NewUpdate_render, applyOpts_And_inline.
  - intros. now rewrite !NewDelete_render, applyOpts_And_inline.
Qed.

(** C2: [Or(opts...)] runs the nested contributors on a fresh accumulator,
    appends to the enclosing predicate fragments the single fragment made
    of the nested fragments joined by [ OR ] (no parentheses), and appends
    the nested predicate arguments after the enclosing ones.  Hence, among
    one-value predicates, the arguments a builder returns follow the call
    order of the contributors, the disjunction's included. *)
Theorem Or_appends_one_fragment :
  forall (opts : list QueryBuilderOption) (q : Query),
    where_ (Or opts q)
    = (where_ q ++ [concat " OR " (where_ (applyOpts opts zeroQuery))])%list
    /\ params (Or opts q)
       = (params q ++ params (applyOpts opts zeroQuery))%list
    /\ (forall a b,
           concat " OR " [a; b] = a ++ " OR " ++ b)
    /\ (forall table fields pre post,
           snd (NewQuery table fields
                         (map oneValue pre ++ Or opts :: map oneValue post))
           = (map valueOf pre ++ params (applyOpts opts zeroQuery)
                  ++ map valueOf post)%list)
    /\ (forall table fields pre mid post,
           snd (NewQuery table fields
                         (map oneValue pre ++ Or (map oneValue mid)
                              :: map oneValue post))
           = map valueOf (pre ++ mid ++ post))
    /\ (forall table pre mid post,
           snd (NewUpdate table
                          (map oneValue pre ++ Or (map oneValue mid)
                               :: map oneValue post))
           = map valueOf (pre ++ mid ++ post))
    /\ (forall table pre mid post,
           snd (NewDelete table
                          (map oneValue pre ++ Or (map oneValue mid)
                               :: map oneValue post))
           = map valueOf (pre ++ mid ++ post)).
Proof.
  intros opts q.
  assert (Hparams : forall table pre nested post,
             params (applyOpts (map oneValue pre ++ Or nested
                                    :: map oneValue post) (newQuery table))
             = (map valueOf pre ++ params (applyOpts nested zeroQuery)
                    ++ map valueOf post)%list).
  { intros table pre nested post.
    rewrite (applyOpts_app (map oneValue pre)), applyOpts_cons, params_oneValue.
    rewrite Or_RawWhere, RawWhere_fields. cbn [params].
    rewrite params_oneValue. cbn [params newQuery app].
    now rewrite <- app_assoc. }
  assert (Hsets : forall l q0,
             setParams (applyOpts (map oneValue l) q0) = setParams q0
             /\ aggregationParams (applyOpts (map oneValue l) q0)
                = aggregationParams q0).
  { induction l as [|[[f op] v] l IH]; intros q0; [now split|].
    cbn [map]. rewrite applyOpts_cons.
    destruct (IH (oneValue (f, op, v) q0)) as [-> ->].
    unfold oneValue. now rewrite Where_RawWhere. }
  split; [|split; [|split; [|split; [|split; [|split]]]]].
  - now rewrite Or_RawWhere.
  - now rewrite Or_RawWhere.
  - reflexivity.
  - intros. rewrite NewQuery_render. cbn [snd]. apply Hparams.
  - intros. rewrite NewQuery_render. cbn [snd]. rewrite Hparams.
    rewrite params_oneValue. cbn [params zeroQuery app].
    now rewrite !map_app.
  - intros. rewrite NewUpdate_render. cbn [snd]. rewrite Hparams.
    rewrite (applyOpts_app (map oneValue pre)), applyOpts_cons.
    destruct (Hsets post
                (Or (map oneValue mid)
                    (applyOpts (map oneValue pre) (newQuery table))))
      as [-> ->].
    rewrite Or_RawWhere, RawWhere_fields.
    cbn [setParams aggregationParams].
    destruct (Hsets pre (newQuery table)) as [-> ->].
    rewrite params_oneValue. cbn [params zeroQuery newQuery setParams
                                         aggregationParams app].
    now rewrite app_nil_r, !map_app.
  - intros. rewrite NewDelete_render. cbn [snd]. rewrite Hparams.
    rewrite params_oneValue. cbn [params zeroQuery app].
    now rewrite !map_app.
Qed.

Lemma concat_cons2 (sep a b : string) (t : list string) :
  concat sep (a :: b :: t) = a ++ sep ++ concat sep (b :: t).
Proof. reflexivity. Qed.

Lemma concat_snoc (sep : string) (l : list string) (x : string) :
  concat sep (l ++ [x])
  = match l with [] => x | _ => concat sep l ++ sep ++ x end.
Proof.
  induction l as [|w l IH]; [reflexivity|].
  destruct l as [|w' l]; [reflexivity|].
  cbn [app] in *.
  rewrite (concat_cons2 sep w w' (l ++ [x])), IH, (concat_cons2 sep w w' l).
  now rewrite !append_assoc.
Qed.

Lemma whereClause_snoc_empty (l : list string) :
  whereClause (l ++ [""])
  = match l with
    | [] => " WHERE "
    | _ => whereClause l ++ " AND "
    end.
Proof.
  destruct l as [|w l]; [reflexivity|].
  unfold whereClause. cbn [app].
  change (w :: (l ++ [""])%list) with ((w :: l) ++ [""])%list.
  rewrite concat_snoc, append_nil_right. now rewrite !append_assoc.
Qed.

(** C8: [Or(opts...)] changes only the predicate fragments and predicate
    arguments of the enclosing accumulator.  Whatever the nested
    contributors add to the joins, the assignments or the trailing clauses
    lands in the temporary accumulator and is dropped with it, so it shows
    neither in the text nor in the arguments of the enclosing statement. *)
Theorem Or_frame :
  forall (opts : list QueryBuilderOption) (q : Query),
    Table (Or opts q) = Table q
    /\ fields (Or opts q) = fields q
    /\ join (Or opts q) = join q
    /\ aggregations (Or opts q) = aggregations q
    /\ aggregationParams (Or opts q) = aggregationParams q
    /\ sets (Or opts q) = sets q
    /\ setParams (Or opts q) = setParams q
    /\ Or opts q
       = RawWhere (concat " OR " (where_ (applyOpts opts zeroQuery)))
                  (params (applyOpts opts zeroQuery)) q
    /\ (forall table joinType on equal f v limit by_ order raw ps,
           Or [Join table joinType on equal; Set_ f v; Limit limit;
               OrderBy by_ order; First; Raw raw ps] q
           = Or [] q)
    /\ (forall t fs table joinType on equal f v limit by_ order raw ps
               field operation x,
           let nested :=
             [Join table joinType on equal; Set_ f v; Limit limit;
              OrderBy by_ order; First; Raw raw ps;
              Where field operation [x]] in
           NewQuery t fs [Or nested]
           = NewQuery t fs [Or [Where field operation [x]]]
           /\ NewUpdate t [Or nested]
              = NewUpdate t [Or [Where field operation [x]]]
           /\ NewDelete t [Or nested]
              = NewDelete t [Or [Where field operation [x]]]).
Proof.
  intros opts q.
  repeat (split; [reflexivity|]).
  split; [apply Or_RawWhere|].
  split.
  - intros. reflexivity.
  - intros. subst nested.
    rewrite !NewQuery_render, !NewUpdate_render, !NewDelete_render.
    repeat split.
Qed.

(** C9: [Or()] without nested contributors appends one empty predicate
    fragment and no argument.  A builder then renders a WHERE clause with
    an empty member: [ WHERE ] followed by nothing when there is no other
    predicate, and the other predicates followed by a dangling [ AND ]
    otherwise. *)
Theorem Or_empty_appends_empty_fragment :
  (forall q,
      where_ (Or [] q) = (where_ q ++ [""])%list
      /\ params (Or [] q) = params q)
  /\ (forall l,
         whereClause (l ++ [""])
         = match l with
           | [] => " WHERE "
           | _ => whereClause l ++ " AND "
           end)
  /\ (forall table fields opts,
         let q := applyOpts opts (newQuery table) in
         fst (NewQuery table fields (opts ++ [Or []]))
         = "SELECT " ++ fieldList fields ++ " FROM " ++ table
             ++ concat "" (join q)
             ++ whereClause (where_ q ++ [""])
             ++ trailingClause (aggregations q))
  /\ (forall table opts,
         let q := applyOpts opts (newQuery table) in
         fst (NewUpdate table (opts ++ [Or []]))
         = "UPDATE " ++ table ++ " SET" ++ setClause table (sets q)
             ++ concat "" (join q)
             ++ whereClause (where_ q ++ [""])
             ++ trailingClause (aggregations q))
  /\ (forall table opts,
         let q := applyOpts opts (newQuery table) in
         fst (NewDelete table (opts ++ [Or []]))
         = "DELETE FROM " ++ table
             ++ concat "" (join q)
             ++ whereClause (where_ q ++ [""])
             ++ trailingClause (aggregations q))
  /\ NewQuery "users" [] [Where "users.id" Equal [AnyInt 1]; Or []]
     = ("SELECT * FROM users WHERE users.id = ? AND ", [AnyInt 1])
  /\ NewQuery "users" [] [Or []] = ("SELECT * FROM users WHERE ", [])
  /\ NewDelete "users" [Or []] = ("DELETE FROM users WHERE ", []).
Proof.
  split; [|split; [|split; [|split; [|split; [|split; [|split]]]]]].
  - intros q. rewrite Or_RawWhere, RawWhere_fields. cbn.
    now rewrite app_nil_r.
  - apply whereClause_snoc_empty.
  - intros table fs opts q. subst q.
    rewrite NewQuery_render. cbn [fst].
    rewrite (applyOpts_app opts [Or []]). reflexivity.
  - intros table opts q. subst q.
    rewrite NewUpdate_render. cbn [fst].
    rewrite (applyOpts_app opts [Or []]). reflexivity.
  - intros table opts q. subst q.
    rewrite NewDelete_render. cbn [fst].
    rewrite (applyOpts_app opts [Or []]). reflexivity.
  - reflexivity.
  - reflexivity.
  - reflexivity.
Qed.

(** ** Retrieval and mutation *)

(** C6: a retrieval renders [SELECT], the field list ([*] when it is
    empty, otherwise the names joined by a comma and a space in the given
    order), [FROM] and the entity, the join fragments in append order, the
    predicate fragments joined by [ AND ] after [WHERE] when there are any,
    and the trailing fragments separated by single spaces in append order. *)
Theorem NewQuery_clause_order :
  forall (table : DBTable) (fields : list DBField)
         (opts : list QueryBuilderOption),
    let q := applyOpts opts (newQuery table) in
    fst (NewQuery table fields opts)
    = "SELECT "
        ++ match fields with [] => "*" | _ => concat ", " fields end
        ++ " FROM " ++ table
        ++ concat "" (join q)
        ++ match where_ q with
           | [] => ""
           | _ => " WHERE " ++ concat " AND " (where_ q)
           end
        ++ match aggregations q with
           | [] => ""
           | _ => " " ++ concat " " (aggregations q)
           end
    /\ prefix ("SELECT * FROM " ++ table) (fst (NewQuery table [] opts)) = true
    /\ NewQuery "users" [] [] = ("SELECT * FROM users", [])
    /\ NewQuery "users" ["users.id"; "products.user_id"]
                [Join "products" RightJoin "users.id" "products.user_id"]
       = ("SELECT users.id, products.user_id FROM users RIGHT JOIN products ON users.id = products.user_id",
          [])
    /\ NewQuery "users" ["users.name"]
                [Join "products" InnerJoin "" "";
                 Where "users.id" In [AnyInt 1; AnyInt 2; AnyInt 3];
                 Where "users.name" Like [AnyString "a%"];
                 First; OrderBy "users.id" Desc]
       = ("SELECT users.name FROM users INNER JOIN products WHERE users.id IN (?,?,?) AND users.name LIKE ? LIMIT 1 ORDER BY users.id DESC",
          [AnyInt 1; AnyInt 2; AnyInt 3; AnyString "a%"]).
Proof.
  intros table fs opts q. subst q.
  split; [|split; [|split; [|split]]].
  - rewrite NewQuery_render. reflexivity.
  - rewrite NewQuery_render. cbn [fst fieldList].
    change ("SELECT " ++ "*" ++ " FROM " ++ table
              ++ concat "" (join (applyOpts opts (newQuery table)))
              ++ whereClause (where_ (applyOpts opts (newQuery table)))
              ++ trailingClause (aggregations (applyOpts opts (newQuery table))))
      with (("SELECT * FROM " ++ table)
              ++ concat "" (join (applyOpts opts (newQuery table)))
              ++ whereClause (where_ (applyOpts opts (newQuery table)))
              ++ trailingClause (aggregations (applyOpts opts (newQuery table)))).
    apply prefix_append.
  - reflexivity.
  - reflexivity.
  - reflexivity.
Qed.

(** ** Insertion *)

Lemma prefix_split (a w : string) :
  prefix a w = true -> w = a ++ drop (String.length a) w.
Proof.
  revert w. induction a as [|c a IH]; intros w H; [reflexivity|].
  destruct w as [|d w]; simpl in H; [discriminate|].
  destruct (ascii_dec c d) as [->|]; [|discriminate].
  simpl. f_equal. now apply IH.
Qed.

Lemma replace_from_skip (old new a rest : string) (n : nat) :
  replace_from old new (String.length a) n (a ++ rest)
  = replace_from old new 0 n rest.
Proof.
  induction a as [|c a IH]; simpl; [|exact IH].
  destruct rest; reflexivity.
Qed.

Lemma replace_from_absent (old new : string) (n : nat) (s : string) :
  Contains s old = false -> replace_from old new 0 n s = s.
Proof.
  induction s as [|c s IH]; intros H; [reflexivity|].
  destruct n as [|n]; [reflexivity|].
  cbn [Contains] in H. apply orb_false_iff in H as [Hp Hc].
  cbn [replace_from]. rewrite Hp. f_equal. now apply IH.
Qed.

Lemma Replace_leading (old rest : string) (n : nat) :
  old <> "" -> Contains rest old = false ->
  Replace (old ++ rest) old "" (S n) = rest.
Proof.
  intros Hold Hrest. destruct old as [|c old]; [congruence|].
  unfold Replace.
  change ((String c old ++ rest)) with (String c (old ++ rest)).
  cbn [replace_from].
  change (String c (old ++ rest)) with (String c old ++ rest).
  rewrite prefix_append.
  replace (String.length (String c old) - 1) with (String.length old)
    by (cbn [String.length]; lia).
  rewrite replace_from_skip. cbn [append].
  now apply replace_from_absent.
Qed.

Lemma Replace_stripQualifier (table : DBTable) (w : DBField) (n : nat) :
  Contains (stripQualifier table w) (table ++ ".") = false ->
  Replace w (table ++ ".") "" (S n) = stripQualifier table w.
Proof.
  unfold stripQualifier. intros H.
  destruct (prefix (table ++ ".") w) eqn:Hp.
  - rewrite (prefix_split _ _ Hp) at 1.
    apply Replace_leading; [destruct table; discriminate | exact H].
  - now apply replace_from_absent.
Qed.

Example NewInsert_test :
  NewInsert "users" ["name"; "address"; "status"]
  = "INSERT INTO users (name, address, status) VALUES (?, ?, ?)".
Proof. reflexivity. Qed.

(** C5, as the specification states it, fails: the builder removes the
    text [users.] wherever it occurs in a field name (up to eleven times),
    not only a leading qualifier, and not only once. *)
Lemma NewInsert_strips_inside_names :
  NewInsert "users" ["superusers.id"; "users.users.name"]
  = "INSERT INTO users (superid, name) VALUES (?, ?)"
  /\ NewInsert_spec "users" ["superusers.id"; "users.users.name"]
     = "INSERT INTO users (superusers.id, users.name) VALUES (?, ?)"
  /\ NewInsert "users" ["superusers.id"; "users.users.name"]
     <> NewInsert_spec "users" ["superusers.id"; "users.users.name"].
Proof. split; [reflexivity | split; [reflexivity | discriminate]]. Qed.

(** C5, amended: when no field name contains [table.] anywhere but as its
    leading qualifier, the insertion is [INSERT INTO table (], the fields
    in order joined by a comma and a space, each without that qualifier,
    [) VALUES (], one [?] per field joined likewise, and [)]. *)
Theorem NewInsert_strips_qualifier :
  forall (table : DBTable) (fields : list DBField),
    Forall (fun w => Contains (stripQualifier table w) (table ++ ".") = false)
           fields ->
    NewInsert table fields
    = "INSERT INTO " ++ table ++ " ("
        ++ concat ", " (map (stripQualifier table) fields)
        ++ ") VALUES ("
        ++ concat ", " (repeat "?" (List.length fields)) ++ ")".
Proof.
  intros table fs H. rewrite NewInsert_render.
  replace (map (fun w => Replace w (table ++ ".") "" 11) fs)
    with (map (stripQualifier table) fs); [reflexivity|].
  apply map_ext_Forall. revert H. apply Forall_impl.
  intros w Hw. symmetry. now apply Replace_stripQualifier.
Qed.

Lemma NewInsert_strips_qualifier_witness :
  Forall (fun w => Contains (stripQualifier "users" w) "users." = false)
         ["users.name"; "address"; "users.status"]
  /\ NewInsert "users" ["users.name"; "address"; "users.status"]
     = "INSERT INTO users (name, address, status) VALUES (?, ?, ?)".
Proof.
  split.
  - repeat constructor.
  - apply (NewInsert_strips_qualifier
             "users" ["users.name"; "address"; "users.status"]).
    repeat constructor.
Defined.

(** ** Placeholders and arguments *)

Lemma placeholders_in_snoc (l : list string) (x : string) :
  placeholders_in (l ++ [x]) = placeholders_in l + placeholders x.
Proof.
  rewrite placeholders_in_app. unfold placeholders_in at 2. simpl. lia.
Qed.

Lemma placeholders_repeat (k : nat) :
  placeholders (concat "," (repeat "?" k)) = k.
Proof.
  rewrite placeholders_concat by reflexivity.
  induction k as [|k IH]; [reflexivity|].
  unfold placeholders_in in *. simpl. now rewrite IH.
Qed.

Lemma placeholders_whereText (field : DBField) (operation : DBOperation)
      (ps : list any) :
  placeholders (whereText field operation ps)
  = placeholders field + placeholders operation + List.length ps.
Proof.
  unfold whereText. destruct ps as [|p [|p' ps]].
  - rewrite !placeholders_append. simpl. lia.
  - rewrite !placeholders_append. simpl. lia.
  - rewrite !placeholders_append, placeholders_repeat. simpl. lia.
Qed.

Lemma balanced_zeroQuery : balanced zeroQuery.
Proof. repeat split. Qed.

Lemma balanced_newQuery (table : DBTable) : balanced (newQuery table).
Proof. repeat split. Qed.

Lemma balanced_applyOpts (opts : list QueryBuilderOption) :
  Forall Aligned opts -> forall q, balanced q -> balanced (applyOpts opts q).
Proof.
  induction 1 as [|o opts Ho _ IH]; intros q Hq; [exact Hq|].
  rewrite applyOpts_cons. apply IH, Ho, Hq.
Qed.

Lemma Aligned_RawWhere (text : string) (ps : list any) :
  placeholders text = List.length ps -> Aligned (RawWhere text ps).
Proof.
  intros H q (Hw & Ha & Hj). rewrite RawWhere_fields.
  unfold balanced. cbn [where_ params aggregations aggregationParams join].
  rewrite placeholders_in_snoc, length_app. repeat split; lia.
Qed.

Lemma Aligned_Where (field : DBField) (operation : DBOperation)
      (ps : list any) :
  placeholders field = 0 -> placeholders operation = 0 ->
  Aligned (Where field operation ps).
Proof.
  intros Hf Ho q Hq. rewrite Where_RawWhere.
  apply Aligned_RawWhere; [|exact Hq].
  rewrite placeholders_whereText. lia.
Qed.

Lemma Aligned_And (opts : list QueryBuilderOption) :
  Forall Aligned opts -> Aligned (And opts).
Proof. intros H q Hq. now apply (balanced_applyOpts opts). Qed.

Lemma Aligned_Or (opts : list QueryBuilderOption) :
  Forall Aligned opts -> Aligned (Or opts).
Proof.
  intros H q Hq. rewrite Or_RawWhere.
  apply Aligned_RawWhere; [|exact Hq].
  rewrite placeholders_concat by reflexivity.
  apply (balanced_applyOpts opts H zeroQuery balanced_zeroQuery).
Qed.

Lemma Aligned_Raw (text : string) (ps : list any) :
  placeholders text = List.length ps -> Aligned (Raw text ps).
Proof.
  intros H q (Hw & Ha & Hj). unfold balanced, Raw.
  cbn [where_ params aggregations aggregationParams join
              set_aggregations set_aggregationParams].
  rewrite placeholders_in_snoc, length_app. repeat split; lia.
Qed.

Lemma Aligned_Limit (limit : Z) : Aligned (Limit limit).
Proof. apply (Aligned_Raw "LIMIT ?" [AnyInt limit]). reflexivity. Qed.

Lemma Aligned_First : Aligned First.
Proof.
  intros q (Hw & Ha & Hj). unfold balanced, First.
  cbn [where_ params aggregations aggregationParams join set_aggregations].
  rewrite placeholders_in_snoc. repeat split; simpl; lia.
Qed.

Lemma Aligned_OrderBy (field : DBField) (order : OrderByType) :
  placeholders field = 0 -> placeholders order = 0 ->
  Aligned (OrderBy field order).
Proof.
  intros Hf Ho q (Hw & Ha & Hj). unfold balanced, OrderBy.
  cbn [where_ params aggregations aggregationParams join set_aggregations].
  rewrite placeholders_in_snoc, !placeholders_append.
  repeat split; simpl; lia.
Qed.

Lemma Aligned_Set (field : DBField) (value : any) : Aligned (Set_ field value).
Proof. intros q Hq. exact Hq. Qed.

Lemma Aligned_Join (table : DBTable) (joinType : JoinType)
      (on equal : DBField) :
  placeholders table = 0 -> placeholders joinType = 0 ->
  placeholders on = 0 -> placeholders equal = 0 ->
  Aligned (Join table joinType on equal).
Proof.
  intros Ht Hjt Hon Heq q (Hw & Ha & Hj). unfold balanced, Join.
  cbn [where_ params aggregations aggregationParams join set_join].
  rewrite placeholders_in_snoc.
  repeat split; try assumption.
  destruct (negb (on =? "") && negb (equal =? ""));
    rewrite !placeholders_append; simpl; lia.
Qed.

Lemma placeholders_whereClause (l : list string) :
  placeholders (whereClause l) = placeholders_in l.
Proof.
  destruct l as [|w l]; [reflexivity|].
  unfold whereClause. rewrite placeholders_append, placeholders_concat;
    reflexivity.
Qed.

Lemma placeholders_trailingClause (l : list string) :
  placeholders (trailingClause l) = placeholders_in l.
Proof.
  destruct l as [|w l]; [reflexivity|].
  unfold trailingClause. rewrite placeholders_append, placeholders_concat;
    reflexivity.
Qed.

Lemma placeholders_fieldList (fs : list DBField) :
  placeholders_in fs = 0 -> placeholders (fieldList fs) = 0.
Proof.
  destruct fs as [|f fs]; [reflexivity|].
  unfold fieldList. now rewrite placeholders_concat.
Qed.

(** Two ways for the [?] of a text and the returned arguments to part:
    the retrieval and the removal return the predicate arguments alone, so
    a [Limit] leaves a [?] without its argument; and raw text is taken as
    it comes, so its [?] need not match the values given with it. *)
Lemma NewQuery_arguments_misaligned :
  NewQuery "users" [] [Limit 1; OrderBy "users.id" Desc]
  = ("SELECT * FROM users LIMIT ? ORDER BY users.id DESC", [])
  /\ snd (NewQuery "users" [] [Limit 1; OrderBy "users.id" Desc])
     <> [AnyInt 1]
  /\ (let q := applyOpts [Limit 1; OrderBy "users.id" Desc] (newQuery "users") in
      snd (NewQuery "users" [] [Limit 1; OrderBy "users.id" Desc])
      <> (params q ++ aggregationParams q)%list)
  /\ placeholders (fst (NewQuery "users" [] [Limit 1; OrderBy "users.id" Desc]))
     <> List.length (snd (NewQuery "users" [] [Limit 1; OrderBy "users.id" Desc]))
  /\ NewDelete "users" [Where "users.id" Equal [AnyInt 7]; Limit 1]
     = ("DELETE FROM users WHERE users.id = ? LIMIT ?", [AnyInt 7])
  /\ NewQuery "users" [] [RawWhere "a = ? OR b = ?" [AnyInt 1]]
     = ("SELECT * FROM users WHERE a = ? OR b = ?", [AnyInt 1])
  /\ placeholders (fst (NewQuery "users" [] [RawWhere "a = ? OR b = ?" [AnyInt 1]]))
     <> List.length (snd (NewQuery "users" [] [RawWhere "a = ? OR b = ?" [AnyInt 1]])).
Proof.
  repeat (split; [first [reflexivity | discriminate]|]). discriminate.
Qed.

(** When the entity and field names carry no [?] and every
    contributor keeps placeholders and arguments aligned, the text of a
    retrieval or of a removal holds exactly as many [?] as there are
    predicate arguments and trailing arguments together; and when no
    trailing argument is contributed, the builder returns the predicate
    arguments followed by the (empty) trailing arguments, as many as the
    text has [?]. *)
Theorem NewQuery_NewDelete_arguments_aligned :
  forall (table : DBTable) (fields : list DBField)
         (opts : list QueryBuilderOption),
    placeholders table = 0 ->
    placeholders_in fields = 0 ->
    Forall Aligned opts ->
    let q := applyOpts opts (newQuery table) in
    placeholders (fst (NewQuery table fields opts))
    = List.length (params q ++ aggregationParams q)
    /\ placeholders (fst (NewDelete table opts))
       = List.length (params q ++ aggregationParams q)
    /\ (aggregationParams q = [] ->
        snd (NewQuery table fields opts)
        = (params q ++ aggregationParams q)%list
        /\ placeholders (fst (NewQuery table fields opts))
           = List.length (snd (NewQuery table fields opts))
        /\ snd (NewDelete table opts) = (params q ++ aggregationParams q)%list
        /\ placeholders (fst (NewDelete table opts))
           = List.length (snd (NewDelete table opts))).
Proof.
  intros table fs opts Ht Hfs Hopts q.
  destruct (balanced_applyOpts opts Hopts _ (balanced_newQuery table))
    as (Hw & Ha & Hj).
  fold q in Hw, Ha, Hj.
  assert (Hquery : placeholders (fst (NewQuery table fs opts))
                   = List.length (params q ++ aggregationParams q)).
  { rewrite NewQuery_render. fold q. cbn [fst].
    rewrite !placeholders_append, placeholders_fieldList by exact Hfs.
    rewrite placeholders_concat by reflexivity.
    rewrite placeholders_whereClause, placeholders_trailingClause.
    rewrite Ht, Hj, Ha, Hw, length_app. cbn. lia. }
  assert (Hdelete : placeholders (fst (NewDelete table opts))
                    = List.length (params q ++ aggregationParams q)).
  { rewrite NewDelete_render. fold q. cbn [fst].
    rewrite !placeholders_append.
    rewrite placeholders_concat by reflexivity.
    rewrite placeholders_whereClause, placeholders_trailingClause.
    rewrite Ht, Hj, Ha, Hw, length_app. cbn. lia. }
  split; [exact Hquery | split; [exact Hdelete|]].
  intros Hagg. rewrite Hquery, Hdelete.
  rewrite NewQuery_render, NewDelete_render. fold q. cbn [snd].
  rewrite Hagg, app_nil_r. repeat split.
Qed.

Lemma NewQuery_NewDelete_arguments_aligned_witness :
  let opts :=
    [Join "products" InnerJoin "users.id" "products.user_id";
     Where "users.id" In [AnyInt 1; AnyInt 2; AnyInt 3];
     Or [Where "users.name" Equal [AnyString "a"];
         Where "users.name" NotEqual [AnyString "b"]];
     And [Where "products.user_id" GreaterThan [AnyInt 0]];
     RawWhere "products.price BETWEEN ? AND ?" [AnyInt 1; AnyInt 9];
     OrderBy "users.id" Desc; First] in
  NewQuery "users" ["users.name"] opts
  = ("SELECT users.name FROM users INNER JOIN products ON users.id = products.user_id WHERE users.id IN (?,?,?) AND users.name = ? OR users.name NOT EQUAL ? AND products.user_id > ? AND products.price BETWEEN ? AND ? ORDER BY users.id DESC LIMIT 1",
     [AnyInt 1; AnyInt 2; AnyInt 3; AnyString "a"; AnyString "b"; AnyInt 0;
      AnyInt 1; AnyInt 9])
  /\ placeholders (fst (NewQuery "users" ["users.name"] opts))
     = List.length (snd (NewQuery "users" ["users.name"] opts))
  /\ placeholders (fst (NewDelete "users" opts))
     = List.length (snd (NewDelete "users" opts)).
Proof.
  intros opts.
  assert (Hopts : Forall Aligned opts).
  { subst opts.
    repeat first
           [ apply Forall_nil
           | apply Forall_cons
           | apply Aligned_Join; reflexivity
           | apply Aligned_Where; reflexivity
           | apply Aligned_Or
           | apply Aligned_And
           | apply Aligned_RawWhere; reflexivity
           | apply Aligned_OrderBy; reflexivity
           | apply Aligned_First ]. }
  destruct (NewQuery_NewDelete_arguments_aligned
              "users" ["users.name"] opts
              eq_refl eq_refl Hopts) as (_ & _ & H).
  destruct (H eq_refl) as (_ & Hq & _ & Hd).
  split; [reflexivity | split; [exact Hq | exact Hd]].
Defined.

(** ** Removal, trailing clauses, joins *)

Lemma trailingClause_snoc (l : list string) (x : string) :
  trailingClause (l ++ [x]) = trailingClause l ++ " " ++ x.
Proof.
  destruct l as [|w l]; [reflexivity|].
  unfold trailingClause. cbn [app].
  change (w :: (l ++ [x])%list) with ((w :: l) ++ [x])%list.
  rewrite concat_snoc. now rewrite !append_assoc.
Qed.

Lemma applyOpts_snoc (opts : list QueryBuilderOption) (o : QueryBuilderOption)
      (q : Query) :
  applyOpts (opts ++ [o]) q = o (applyOpts opts q).
Proof. now rewrite (applyOpts_app opts [o]). Qed.

(** X1: a removal renders [DELETE FROM] and the entity, the join
    fragments, the predicate fragments joined by [ AND ] after [WHERE] when
    there are any, and the trailing fragments separated by spaces; it
    returns the predicate arguments.  Without contributors it is the bare
    [DELETE FROM entity], with no WHERE clause. *)
Theorem NewDelete_clause_order :
  forall (table : DBTable) (opts : list QueryBuilderOption),
    let q := applyOpts opts (newQuery table) in
    NewDelete table opts
    = ("DELETE FROM " ++ table
         ++ concat "" (join q)
         ++ match where_ q with
            | [] => ""
            | _ => " WHERE " ++ concat " AND " (where_ q)
            end
         ++ match aggregations q with
            | [] => ""
            | _ => " " ++ concat " " (aggregations q)
            end,
       params q)
    /\ NewDelete table [] = ("DELETE FROM " ++ table, []).
Proof.
  intros table opts q. subst q. split.
  - rewrite NewDelete_render. reflexivity.
  - rewrite NewDelete_render. cbn.
    now rewrite !append_nil_right.
Qed.

(** X2: a raw trailing clause given last is put at the very end of the
    statement, after one space.  The retrieval and the removal return the
    same arguments as without it, whatever values come with the clause;
    the mutation returns them with those values appended.  [Limit] behaves
    as the raw clause [LIMIT ?] with the limit as its value. *)
Theorem Raw_appends_at_end :
  forall (table : DBTable) (fields : list DBField)
         (opts : list QueryBuilderOption) (text : string) (ps : list any)
         (limit : Z),
    NewQuery table fields (opts ++ [Raw text ps])
    = (fst (NewQuery table fields opts) ++ " " ++ text,
       snd (NewQuery table fields opts))
    /\ NewDelete table (opts ++ [Raw text ps])
       = (fst (NewDelete table opts) ++ " " ++ text,
          snd (NewDelete table opts))
    /\ NewUpdate table (opts ++ [Raw text ps])
       = (fst (NewUpdate table opts) ++ " " ++ text,
          (snd (NewUpdate table opts) ++ ps)%list)
    /\ NewQuery table fields (opts ++ [Limit limit])
       = (fst (NewQuery table fields opts) ++ " LIMIT ?",
          snd (NewQuery table fields opts))
    /\ NewDelete table (opts ++ [Limit limit])
       = (fst (NewDelete table opts) ++ " LIMIT ?",
          snd (NewDelete table opts))
    /\ NewUpdate table (opts ++ [Limit limit])
       = (fst (NewUpdate table opts) ++ " LIMIT ?",
          (snd (NewUpdate table opts) ++ [AnyInt limit])%list).
Proof.
  intros table fs opts text ps limit.
  assert (HQ : forall text ps,
             NewQuery table fs (opts ++ [Raw text ps])
             = (fst (NewQuery table fs opts) ++ " " ++ text,
                snd (NewQuery table fs opts))).
  { intros t p. rewrite !NewQuery_render, applyOpts_snoc.
    unfold Raw. cbn [fst snd join where_ aggregations params
                         set_aggregations set_aggregationParams].
    rewrite trailingClause_snoc. now rewrite !append_assoc. }
  assert (HD : forall text ps,
             NewDelete table (opts ++ [Raw text ps])
             = (fst (NewDelete table opts) ++ " " ++ text,
                snd (NewDelete table opts))).
  { intros t p. rewrite !NewDelete_render, applyOpts_snoc.
    unfold Raw. cbn [fst snd join where_ aggregations params
                         set_aggregations set_aggregationParams].
    rewrite trailingClause_snoc. now rewrite !append_assoc. }
  assert (HU : forall text ps,
             NewUpdate table (opts ++ [Raw text ps])
             = (fst (NewUpdate table opts) ++ " " ++ text,
                (snd (NewUpdate table opts) ++ ps)%list)).
  { intros t p. rewrite !NewUpdate_render, applyOpts_snoc.
    unfold Raw. cbn [fst snd join where_ aggregations params sets setParams
                         aggregationParams
                         set_aggregations set_aggregationParams].
    rewrite trailingClause_snoc. rewrite !append_assoc.
    now rewrite <- !app_assoc. }
  split; [apply HQ | split; [apply HD | split; [apply HU|]]].
  split; [apply (HQ "LIMIT ?" [AnyInt limit])|].
  split; [apply (HD "LIMIT ?" [AnyInt limit])|].
  apply (HU "LIMIT ?" [AnyInt limit]).
Qed.

Lemma Join_fields (table : DBTable) (joinType : JoinType)
      (on equal : DBField) (q : Query) :
  Join table joinType on equal q
  = mkQuery (Table q) (fields q) (where_ q) (params q)
            (join q ++ [joinFragment table joinType on equal])
            (aggregations q) (aggregationParams q) (sets q) (setParams q).
Proof.
  unfold Join, joinFragment, set_join. cbv zeta.
  destruct (on =? ""), (equal =? ""); cbn [negb andb orb];
    try reflexivity.
  now rewrite !append_assoc.
Qed.

(** X3: [Join] appends one join fragment and changes nothing else.  The
    fragment is the join kind, [JOIN] and the entity; the [ON] condition
    is added only when both field names are given, so a single missing
    name drops the condition altogether. *)
Theorem Join_appends_fragment :
  forall (table : DBTable) (joinType : JoinType) (on equal : DBField)
         (q : Query),
    Join table joinType on equal q
    = mkQuery (Table q) (fields q) (where_ q) (params q)
              (join q ++ [joinFragment table joinType on equal])
              (aggregations q) (aggregationParams q) (sets q) (setParams q)
    /\ joinFragment table joinType "" equal
       = " " ++ joinType ++ " JOIN " ++ table
    /\ joinFragment table joinType on ""
       = " " ++ joinType ++ " JOIN " ++ table
    /\ (forall c on' d equal',
           joinFragment table joinType (String c on') (String d equal')
           = " " ++ joinType ++ " JOIN " ++ table
               ++ " ON " ++ String c on' ++ " = " ++ String d equal').
Proof.
  intros table joinType on equal q.
  split; [apply Join_fields|].
  split; [reflexivity|].
  split; [|reflexivity].
  unfold joinFragment. destruct (on =? ""); reflexivity.
Qed.

(** ** Contributors of different kinds *)

Lemma Raw_fields (text : string) (ps : list any) (q : Query) :
  Raw text ps q
  = mkQuery (Table q) (fields q) (where_ q) (params q) (join q)
            (aggregations q ++ [text]) (aggregationParams q ++ ps)
            (sets q) (setParams q).
Proof. reflexivity. Qed.

Lemma Set_fields (field : DBField) (value : any) (q : Query) :
  Set_ field value q
  = mkQuery (Table q) (fields q) (where_ q) (params q) (join q)
            (aggregations q) (aggregationParams q)
            (sets q ++ [field]) (setParams q ++ [value]).
Proof. reflexivity. Qed.

Lemma OrderBy_Raw (field : DBField) (order : OrderByType) (q : Query) :
  OrderBy field order q = Raw ("ORDER BY " ++ field ++ " " ++ order) [] q.
Proof. rewrite Raw_fields. unfold OrderBy, set_aggregations. now rewrite app_nil_r. Qed.

Lemma First_Raw (q : Query) : First q = Raw "LIMIT 1" [] q.
Proof. rewrite Raw_fields. unfold First, set_aggregations. now rewrite app_nil_r. Qed.

Lemma appendsTo_Where (field : DBField) (operation : DBOperation)
      (ps : list any) :
  appendsTo Predicate (Where field operation ps).
Proof. exists (whereText field operation ps), ps. apply Where_RawWhere. Qed.

Lemma appendsTo_Or (opts : list QueryBuilderOption) :
  appendsTo Predicate (Or opts).
Proof.
  exists (concat " OR " (where_ (applyOpts opts zeroQuery))),
    (params (applyOpts opts zeroQuery)).
  apply Or_RawWhere.
Qed.

Lemma appendsTo_RawWhere (text : string) (ps : list any) :
  appendsTo Predicate (RawWhere text ps).
Proof. now exists text, ps. Qed.

Lemma appendsTo_Join (table : DBTable) (joinType : JoinType)
      (on equal : DBField) :
  appendsTo Joining (Join table joinType on equal).
Proof. exists (joinFragment table joinType on equal). apply Join_fields. Qed.

Lemma appendsTo_Set (field : DBField) (value : any) :
  appendsTo Assignment (Set_ field value).
Proof. now exists field, value. Qed.

Lemma appendsTo_Raw (text : string) (ps : list any) :
  appendsTo Trailing (Raw text ps).
Proof. now exists text, ps. Qed.

Lemma appendsTo_Limit (limit : Z) : appendsTo Trailing (Limit limit).
Proof. now exists "LIMIT ?", [AnyInt limit]. Qed.

Lemma appendsTo_OrderBy (field : DBField) (order : OrderByType) :
  appendsTo Trailing (OrderBy field order).
Proof.
  exists ("ORDER BY " ++ field ++ " " ++ order), []. apply OrderBy_Raw.
Qed.

Lemma appendsTo_First : appendsTo Trailing First.
Proof. exists "LIMIT 1", []. apply First_Raw. Qed.

Lemma appendsTo_commute (k1 k2 : kind) (o1 o2 : QueryBuilderOption) :
  k1 <> k2 -> appendsTo k1 o1 -> appendsTo k2 o2 ->
  forall q, o1 (o2 q) = o2 (o1 q).
Proof.
  intros Hk H1 H2 q.
  destruct k1, k2; try congruence; cbn [appendsTo] in H1, H2;
    repeat match goal with
           | H : exists _, _ |- _ => destruct H as [? H]
           end;
    rewrite !H1, !H2; reflexivity.
Qed.

Lemma applyOpts_swap (pre post : list QueryBuilderOption)
      (o1 o2 : QueryBuilderOption) (q : Query) :
  (forall q, o1 (o2 q) = o2 (o1 q)) ->
  applyOpts (pre ++ o1 :: o2 :: post) q = applyOpts (pre ++ o2 :: o1 :: post) q.
Proof.
  intros H.
  rewrite (applyOpts_app pre (o1 :: o2 :: post)),
    (applyOpts_app pre (o2 :: o1 :: post)), !applyOpts_cons.
  now rewrite H.
Qed.

(** X4: every contributor of the package other than [And] appends to one
    sequence only: [Where], [Or] and [RawWhere] to the predicates, [Join]
    to the joins, [Set] to the assignments, and [Raw], [Limit], [OrderBy]
    and [First] to the trailing clauses. *)
Theorem contributors_append_to_one_kind :
  (forall field operation ps, appendsTo Predicate (Where field operation ps))
  /\ (forall opts, appendsTo Predicate (Or opts))
  /\ (forall text ps, appendsTo Predicate (RawWhere text ps))
  /\ (forall table joinType on equal,
         appendsTo Joining (Join table joinType on equal))
  /\ (forall field value, appendsTo Assignment (Set_ field value))
  /\ (forall text ps, appendsTo Trailing (Raw text ps))
  /\ (forall limit, appendsTo Trailing (Limit limit))
  /\ (forall field order, appendsTo Trailing (OrderBy field order))
  /\ appendsTo Trailing First.
Proof.
  split; [exact appendsTo_Where|].
  split; [exact appendsTo_Or|].
  split; [exact appendsTo_RawWhere|].
  split; [exact appendsTo_Join|].
  split; [exact appendsTo_Set|].
  split; [exact appendsTo_Raw|].
  split; [exact appendsTo_Limit|].
  split; [exact appendsTo_OrderBy|].
  exact appendsTo_First.
Qed.

(** X5: two contributors that append to different sequences can be
    given in either order: the accumulator ends up the same, and so do the
    text and the arguments of every builder. *)
Theorem different_kinds_commute :
  forall (k1 k2 : kind) (o1 o2 : QueryBuilderOption),
    k1 <> k2 -> appendsTo k1 o1 -> appendsTo k2 o2 ->
    (forall q, o1 (o2 q) = o2 (o1 q))
    /\ (forall table fields pre post,
           NewQuery table fields (pre ++ o1 :: o2 :: post)
           = NewQuery table fields (pre ++ o2 :: o1 :: post))
    /\ (forall table pre post,
           NewUpdate table (pre ++ o1 :: o2 :: post)
           = NewUpdate table (pre ++ o2 :: o1 :: post))
    /\ (forall table pre post,
           NewDelete table (pre ++ o1 :: o2 :: post)
           = NewDelete table (pre ++ o2 :: o1 :: post)).
Proof.
  intros k1 k2 o1 o2 Hk H1 H2.
  pose proof (appendsTo_commute k1 k2 o1 o2 Hk H1 H2) as Hc.
  split; [exact Hc|].
  split; [|split].
  - intros. now rewrite !NewQuery_render, (applyOpts_swap pre post o1 o2).
  - intros. now rewrite !NewUpdate_render, (applyOpts_swap pre post o1 o2).
  - intros. now rewrite !NewDelete_render, (applyOpts_swap pre post o1 o2).
Qed.

Lemma different_kinds_commute_witness :
  NewUpdate "users" [Where "users.id" Equal [AnyInt 2];
                     Set_ "name" (AnyString "bla")]
  = NewUpdate "users" [Set_ "name" (AnyString "bla");
                       Where "users.id" Equal [AnyInt 2]]
  /\ NewUpdate "users" [Set_ "name" (AnyString "bla");
                        Where "users.id" Equal [AnyInt 2]]
     = ("UPDATE users SET name = ? WHERE users.id = ?",
        [AnyString "bla"; AnyInt 2]).
Proof.
  split; [|reflexivity].
  assert (Hk : Predicate <> Assignment) by discriminate.
  destruct (different_kinds_commute
              Predicate Assignment
              (Where "users.id" Equal [AnyInt 2])
              (Set_ "name" (AnyString "bla"))
              Hk (appendsTo_Where _ _ _) (appendsTo_Set _ _))
    as (_ & _ & Hu & _).
  exact (Hu "users" [] []).
Defined.

(** ** Assignments *)

Lemma Replace_leading_once (old rest : string) :
  old <> "" -> Replace (old ++ rest) old "" 1 = rest.
Proof.
  intros Hold. destruct old as [|c old]; [congruence|].
  unfold Replace.
  change ((String c old ++ rest)) with (String c (old ++ rest)).
  cbn [replace_from].
  change (String c (old ++ rest)) with (String c old ++ rest).
  rewrite prefix_append.
  replace (String.length (String c old) - 1) with (String.length old)
    by (cbn [String.length]; lia).
  rewrite replace_from_skip. cbn [append].
  destruct rest; reflexivity.
Qed.

Lemma Replace_qualified_once (table : DBTable) (f : DBField) :
  Replace (table ++ "." ++ f) (table ++ ".") "" 1 = f.
Proof.
  rewrite <- (append_assoc table "." f).
  apply Replace_leading_once. destruct table; discriminate.
Qed.

Lemma applyOpts_setQualified (table : DBTable) (l : list (DBField * any))
      (q : Query) :
  applyOpts (map (setQualified table) l) q
  = mkQuery (Table q) (fields q) (where_ q) (params q) (join q)
            (aggregations q) (aggregationParams q)
            (sets q ++ map (fun p => table ++ "." ++ fst p) l)
            (setParams q ++ map snd l).
Proof.
  revert q. induction l as [|p l IH]; intros q.
  - cbn [map]. rewrite applyOpts_nil, !app_nil_r. now destruct q.
  - cbn [map]. rewrite applyOpts_cons, IH.
    change (setQualified table p q)
      with (Set_ (table ++ "." ++ fst p) (snd p) q).
    rewrite Set_fields.
    cbn [Table fields where_ params join aggregations aggregationParams
               sets setParams].
    now rewrite <- !app_assoc.
Qed.

(** X6: an assignment given last makes no difference to a retrieval or
    a removal: their text and arguments are those without it. *)
Theorem Set_ignored_by_retrieval_and_removal :
  forall (table : DBTable) (fields : list DBField)
         (opts : list QueryBuilderOption) (field : DBField) (value : any),
    NewQuery table fields (opts ++ [Set_ field value])
    = NewQuery table fields opts
    /\ NewDelete table (opts ++ [Set_ field value]) = NewDelete table opts.
Proof.
  intros table fs opts field value. split.
  - rewrite !NewQuery_render, applyOpts_snoc, Set_fields. reflexivity.
  - rewrite !NewDelete_render, applyOpts_snoc, Set_fields. reflexivity.
Qed.

(** X7: a mutation whose assignments name their fields with the
    qualifier [table.] in front emits each name without it, whatever the
    rest of the name is: only the first occurrence is removed.  The
    assignments are separated by a comma and a space, the arguments are
    the assigned values in order, and with no assignment at all the
    statement is the bare [UPDATE table SET]. *)
Theorem NewUpdate_strips_leading_qualifier_once :
  forall (table : DBTable) (l : list (DBField * any)),
    NewUpdate table (map (setQualified table) l)
    = ("UPDATE " ++ table ++ " SET"
         ++ match l with
            | [] => ""
            | _ => " " ++ concat ", " (map (fun p => fst p ++ " = ?") l)
            end,
       map snd l).
Proof.
  intros table l. rewrite NewUpdate_render, applyOpts_setQualified.
  cbn [sets setParams join where_ aggregations params aggregationParams
            newQuery app concat whereClause trailingClause].
  rewrite app_nil_r, !append_nil_right. f_equal. do 2 f_equal.
  unfold setClause. rewrite map_map.
  destruct l as [|p l]; [reflexivity|].
  cbn [map]. do 2 f_equal. rewrite Replace_qualified_once.
  erewrite map_ext;
    [|intros a; rewrite Replace_qualified_once; reflexivity].
  reflexivity.
Qed.

(** ** Sequences of predicates *)

Lemma applyOpts_oneValue (l : list (DBField * DBOperation * any)) (q : Query) :
  applyOpts (map oneValue l) q
  = mkQuery (Table q) (fields q)
            (where_ q ++ map oneValueText l) (params q ++ map valueOf l)
            (join q) (aggregations q) (aggregationParams q)
            (sets q) (setParams q).
Proof.
  revert q. induction l as [|[[f op] v] l IH]; intros q.
  - cbn [map]. rewrite applyOpts_nil, !app_nil_r. now destruct q.
  - cbn [map]. rewrite applyOpts_cons, IH.
    change (oneValue (f, op, v) q) with (Where f op [v] q).
    rewrite Where_RawWhere, RawWhere_fields.
    cbn [Table fields where_ params join aggregations aggregationParams
               sets setParams oneValueText valueOf whereText].
    now rewrite <- !app_assoc.
Qed.

(** X8: given nothing but predicates of one value each, a builder renders
    one [field operation ?] per predicate, joined by [ AND ] behind
    [WHERE], and returns the values in the order of the predicates. *)
Theorem one_value_predicates_in_order :
  forall (table : DBTable) (fields : list DBField)
         (l : list (DBField * DBOperation * any)),
    NewQuery table fields (map oneValue l)
    = ("SELECT " ++ fieldList fields ++ " FROM " ++ table
         ++ match l with
            | [] => ""
            | _ => " WHERE " ++ concat " AND " (map oneValueText l)
            end,
       map valueOf l)
    /\ NewDelete table (map oneValue l)
       = ("DELETE FROM " ++ table
            ++ match l with
               | [] => ""
               | _ => " WHERE " ++ concat " AND " (map oneValueText l)
               end,
          map valueOf l)
    /\ List.length (snd (NewQuery table fields (map oneValue l)))
       = List.length l.
Proof.
  intros table fs l.
  assert (Hw : whereClause (map oneValueText l)
               = match l with
                 | [] => ""
                 | _ => " WHERE " ++ concat " AND " (map oneValueText l)
                 end) by (destruct l; reflexivity).
  split; [|split].
  - rewrite NewQuery_render, applyOpts_oneValue.
    cbn [join where_ aggregations params newQuery app concat trailingClause].
    rewrite Hw. now rewrite !append_nil_right.
  - rewrite NewDelete_render, applyOpts_oneValue.
    cbn [join where_ aggregations params newQuery app concat trailingClause].
    rewrite Hw. now rewrite !append_nil_right.
  - rewrite NewQuery_render, applyOpts_oneValue.
    cbn [snd params newQuery app]. apply length_map.
Qed.

(** ** Nesting *)

Lemma concat_app (sep : string) (X Y : list string) :
  X <> [] -> Y <> [] ->
  concat sep (X ++ Y) = concat sep X ++ sep ++ concat sep Y.
Proof.
  induction X as [|x X IH]; intros HX HY; [congruence|].
  destruct X as [|x' X].
  - cbn [app]. destruct Y as [|y Y]; [congruence | reflexivity].
  - change (((x :: x' :: X) ++ Y)%list) with (x :: x' :: (X ++ Y)%list).
    rewrite !concat_cons2.
    change (x' :: (X ++ Y)%list) with (((x' :: X) ++ Y)%list).
    rewrite IH by (try discriminate; assumption).
    now rewrite !append_assoc.
Qed.

Lemma concat_flatten (sep : string) (X Y : list string) :
  X <> [] -> concat sep (concat sep X :: Y) = concat sep (X ++ Y).
Proof.
  intros HX. destruct Y as [|y Y].
  - now rewrite app_nil_r.
  - rewrite concat_cons2, concat_app by (try discriminate; assumption).
    reflexivity.
Qed.

(** X9: [And] composes like the list of its contributors: the empty
    conjunction does nothing, the conjunction of two lists is one after
    the other, and a conjunction nested in a conjunction is the same as its
    members listed in place.  A conjunction nested in a disjunction is
    also the same as its members listed in place, so its members end up
    joined by [ OR ]; and a disjunction of one predicate is that
    predicate. *)
Theorem And_Or_nesting :
  (forall q, And [] q = q)
  /\ (forall xs ys q, And (xs ++ ys) q = And ys (And xs q))
  /\ (forall pre opts post q,
         And (pre ++ And opts :: post) q = And (pre ++ opts ++ post) q)
  /\ (forall pre opts post q,
         Or (pre ++ And opts :: post) q = Or (pre ++ opts ++ post) q)
  /\ (forall field operation ps q,
         Or [Where field operation ps] q = Where field operation ps q)
  /\ (forall text ps q, Or [RawWhere text ps] q = RawWhere text ps q)
  /\ (forall opts q, Or [Or opts] q = Or opts q)
  /\ (forall f1 o1 v1 f2 o2 v2 f3 o3 v3 q,
         where_ (Or [And [Where f1 o1 [v1]; Where f2 o2 [v2]];
                     Where f3 o3 [v3]] q)
         = (where_ q
              ++ [(f1 ++ " " ++ o1 ++ " ? OR " ++ f2 ++ " " ++ o2
                      ++ " ? OR " ++ f3 ++ " " ++ o3 ++ " ?")%string])%list).
Proof.
  split; [reflexivity|].
  split; [intros xs ys q; apply (applyOpts_app xs ys q)|].
  split; [intros pre opts post q; apply (applyOpts_And_inline pre opts post q)|].
  split.
  { intros pre opts post q.
    now rewrite !Or_RawWhere, applyOpts_And_inline. }
  split.
  { intros field operation ps q.
    rewrite Or_RawWhere, applyOpts_cons, applyOpts_nil.
    rewrite !Where_RawWhere, !RawWhere_fields.
    cbn [where_ params zeroQuery app concat]. reflexivity. }
  split.
  { intros text ps q.
    rewrite Or_RawWhere, applyOpts_cons, applyOpts_nil, !RawWhere_fields.
    cbn [where_ params zeroQuery app concat]. reflexivity. }
  split.
  { intros opts q.
    rewrite (Or_RawWhere [Or opts]), applyOpts_cons, applyOpts_nil.
    rewrite !Or_RawWhere, !RawWhere_fields.
    cbn [where_ params zeroQuery app concat]. reflexivity. }
  intros. rewrite Or_RawWhere, RawWhere_fields. cbn [where_].
  rewrite applyOpts_cons, applyOpts_cons, applyOpts_nil.
  change (And [Where f1 o1 [v1]; Where f2 o2 [v2]] zeroQuery)
    with (applyOpts [Where f1 o1 [v1]; Where f2 o2 [v2]] zeroQuery).
  rewrite !applyOpts_cons, applyOpts_nil.
  rewrite !Where_RawWhere, !RawWhere_fields.
  cbn [where_ zeroQuery app concat whereText].
  now rewrite !append_assoc.
Qed.

(** X10: a disjunction of one-value predicates nested first in another
    disjunction of one-value predicates is the same as one disjunction of
    all of them, provided the nested one is not empty: nothing marks the
    nested group in the text. *)
Theorem nested_Or_flattens :
  forall (xs ys : list (DBField * DBOperation * any)) (q : Query),
    xs <> [] ->
    Or (Or (map oneValue xs) :: map oneValue ys) q
    = Or (map oneValue (xs ++ ys)) q.
Proof.
  intros xs ys q Hxs.
  rewrite (Or_RawWhere (Or (map oneValue xs) :: map oneValue ys)).
  rewrite (Or_RawWhere (map oneValue (xs ++ ys))).
  rewrite applyOpts_cons, !applyOpts_oneValue.
  rewrite Or_RawWhere, !RawWhere_fields, applyOpts_oneValue.
  cbn [where_ params zeroQuery app].
  rewrite concat_flatten by (destruct xs; [congruence | discriminate]).
  now rewrite !map_app.
Qed.

Lemma nested_Or_flattens_witness :
  [("a", Equal, AnyInt 1); ("b", Like, AnyString "x")] <> []
  /\ NewQuery "users" []
              [Or [Or [Where "a" Equal [AnyInt 1];
                       Where "b" Like [AnyString "x"]];
                   Where "c" NotEqual [AnyInt 3]]]
     = NewQuery "users" []
                [Or [Where "a" Equal [AnyInt 1];
                     Where "b" Like [AnyString "x"];
                     Where "c" NotEqual [AnyInt 3]]].
Proof.
  split; [discriminate|].
  rewrite !NewQuery_render.
  change (applyOpts
            [Or [Or [Where "a" Equal [AnyInt 1];
                     Where "b" Like [AnyString "x"]];
                 Where "c" NotEqual [AnyInt 3]]] (newQuery "users"))
    with (Or (Or (map oneValue
                      [("a", Equal, AnyInt 1); ("b", Like, AnyString "x")])
                 :: map oneValue [("c", NotEqual, AnyInt 3)])
             (newQuery "users")).
  rewrite (nested_Or_flattens
             [("a", Equal, AnyInt 1); ("b", Like, AnyString "x")]
             [("c", NotEqual, AnyInt 3)] (newQuery "users"));
    [reflexivity | discriminate].
Defined.

(** ** Appending only *)

Lemma extends_refl (q : Query) : extends q q.
Proof.
  unfold extends. repeat split; exists []; now rewrite app_nil_r.
Qed.

Lemma extends_trans (q1 q2 q3 : Query) :
  extends q1 q2 -> extends q2 q3 -> extends q1 q3.
Proof.
  intros (T1 & F1 & [w1 W1] & [p1 P1] & [j1 J1] & [a1 A1] & [ap1 AP1]
             & [s1 S1] & [sp1 SP1])
         (T2 & F2 & [w2 W2] & [p2 P2] & [j2 J2] & [a2 A2] & [ap2 AP2]
             & [s2 S2] & [sp2 SP2]).
  unfold extends.
  rewrite T2, T1, F2, F1, W2, W1, P2, P1, J2, J1, A2, A1, AP2, AP1,
    S2, S1, SP2, SP1.
  repeat split; eexists; now rewrite <- app_assoc.
Qed.

Lemma appendsTo_Extending (k : kind) (o : QueryBuilderOption) :
  appendsTo k o -> Extending o.
Proof.
  intros H q. destruct k; cbn [appendsTo] in H;
    repeat match goal with
           | H : exists _, _ |- _ => destruct H as [? H]
           end;
    rewrite H; unfold extends;
    cbn [RawWhere Raw Set_ set_join set_where set_params set_aggregations
                  set_aggregationParams set_sets set_setParams
                  Table fields where_ params join aggregations
                  aggregationParams sets setParams];
    repeat split;
    first [ exists []; now rewrite app_nil_r | eexists; reflexivity ].
Qed.

Lemma Extending_applyOpts (opts : list QueryBuilderOption) :
  Forall Extending opts -> forall q, extends q (applyOpts opts q).
Proof.
  induction 1 as [|o opts Ho _ IH]; intros q; [apply extends_refl|].
  rewrite applyOpts_cons. eapply extends_trans; [apply Ho | apply IH].
Qed.

(** X11: contributors only ever append.  When each contributor of a list
    leaves what the accumulator already holds in place and adds behind it,
    so does the whole list, applied in order or wrapped in [And]: the
    entity and the field list stay, and every sequence of the accumulator
    keeps its former content as a prefix.  [Or] does so whatever is nested
    in it. *)
Theorem contributors_only_append :
  forall (opts : list QueryBuilderOption),
    Forall Extending opts ->
    (forall q, extends q (applyOpts opts q))
    /\ Extending (And opts)
    /\ (forall nested, Extending (Or nested))
    /\ (forall table, Table (applyOpts opts (newQuery table)) = table).
Proof.
  intros opts H.
  split; [apply Extending_applyOpts, H|].
  split; [intros q; apply (Extending_applyOpts opts H q)|].
  split; [intros nested; apply (appendsTo_Extending Predicate), appendsTo_Or|].
  intros table.
  destruct (Extending_applyOpts opts H (newQuery table)) as (HT & _).
  exact HT.
Qed.

Lemma contributors_only_append_witness :
  let opts :=
    [Where "users.id" In [AnyInt 1; AnyInt 2];
     And [Join "products" LeftJoin "users.id" "products.user_id";
          Set_ "name" (AnyString "bla")];
     Or [RawWhere "a = ?" [AnyInt 1]; First];
     Limit 3; OrderBy "users.id" ASC] in
  Forall Extending opts
  /\ extends (newQuery "users") (applyOpts opts (newQuery "users")).
Proof.
  intros opts.
  assert (Hopts : Forall Extending opts).
  { subst opts.
    repeat apply Forall_cons; try apply Forall_nil.
    - apply (appendsTo_Extending Predicate), appendsTo_Where.
    - intros q. apply (Extending_applyOpts
                         [Join "products" LeftJoin "users.id" "products.user_id";
                          Set_ "name" (AnyString "bla")]).
      repeat apply Forall_cons; try apply Forall_nil.
      + apply (appendsTo_Extending Joining), appendsTo_Join.
      + apply (appendsTo_Extending Assignment), appendsTo_Set.
    - apply (appendsTo_Extending Predicate), appendsTo_Or.
    - apply (appendsTo_Extending Trailing), appendsTo_Limit.
    - apply (appendsTo_Extending Trailing), appendsTo_OrderBy. }
  split; [exact Hopts|].
  destruct (contributors_only_append opts Hopts) as (H & _).
  apply H.
Defined.

(** ** Placeholders of insertions and mutations *)

Lemma placeholders_replace_from (old : string) :
  forall (s : string) (skip n : nat),
    placeholders s = 0 -> placeholders (replace_from old "" skip n s) = 0.
Proof.
  induction s as [|c s IH]; intros skip n H; [reflexivity|].
  cbn [placeholders] in H.
  assert (Hc : (if Ascii.eqb c "?"%char then 1 else 0) = 0) by lia.
  assert (Hs : placeholders s = 0) by lia.
  cbn [replace_from]. destruct skip as [|k]; [|now apply IH].
  destruct n as [|n]; [cbn [placeholders]; lia|].
  destruct (prefix old (String c s)).
  - cbn [append]. now apply IH.
  - cbn [placeholders]. rewrite IH by exact Hs. lia.
Qed.

Lemma placeholders_in_cons (x : string) (l : list string) :
  placeholders_in (x :: l) = placeholders x + placeholders_in l.
Proof. reflexivity. Qed.

Lemma placeholders_in_zero (l : list string) :
  placeholders_in l = 0 -> Forall (fun w => placeholders w = 0) l.
Proof.
  induction l as [|w l IH]; intros H; [constructor|].
  rewrite placeholders_in_cons in H.
  constructor; [lia | apply IH; lia].
Qed.

Lemma placeholders_in_map (f : string -> string) (k : nat) (l : list string) :
  Forall (fun w => placeholders (f w) = k) l ->
  placeholders_in (map f l) = k * List.length l.
Proof.
  induction 1 as [|w l Hw _ IH]; [cbn; lia|].
  cbn [map List.length]. rewrite placeholders_in_cons, Hw, IH. lia.
Qed.

(** X12: an insertion over names without [?] holds exactly one [?] per
    field, the empty field list included, for which the statement is
    [INSERT INTO table () VALUES ()]. *)
Theorem NewInsert_one_placeholder_per_field :
  forall (table : DBTable) (fields : list DBField),
    placeholders table = 0 ->
    placeholders_in fields = 0 ->
    placeholders (NewInsert table fields) = List.length fields
    /\ NewInsert table [] = "INSERT INTO " ++ table ++ " () VALUES ()".
Proof.
  intros table fs Ht Hfs. split.
  - rewrite NewInsert_render, !placeholders_append.
    rewrite !placeholders_concat by reflexivity.
    rewrite (placeholders_in_map
               (fun w => Replace w (table ++ ".") "" 11) 0).
    + rewrite Ht.
      assert (Hr : forall k, placeholders_in (repeat "?" k) = k).
      { induction k as [|k IH]; [reflexivity|].
        cbn [repeat]. rewrite placeholders_in_cons, IH. reflexivity. }
      rewrite Hr. cbn. lia.
    + apply placeholders_in_zero in Hfs. revert Hfs. apply Forall_impl.
      intros w Hw. now apply placeholders_replace_from.
  - rewrite NewInsert_render. reflexivity.
Qed.

Lemma NewInsert_one_placeholder_per_field_witness :
  placeholders (NewInsert "users" ["users.name"; "address"; "status"]) = 3.
Proof.
  apply (NewInsert_one_placeholder_per_field
           "users" ["users.name"; "address"; "status"] eq_refl eq_refl).
Defined.

Lemma AlignedUpdate_of_Aligned (o : QueryBuilderOption) :
  Aligned o ->
  (forall q, sets (o q) = sets q /\ setParams (o q) = setParams q) ->
  AlignedUpdate o.
Proof.
  intros Ha Hs q (Hb & Hl & Hp). split; [now apply Ha|].
  destruct (Hs q) as [E1 E2]. unfold setsBalanced. now rewrite E1, E2.
Qed.

Lemma AlignedUpdate_RawWhere (text : string) (ps : list any) :
  placeholders text = List.length ps -> AlignedUpdate (RawWhere text ps).
Proof.
  intros H. apply AlignedUpdate_of_Aligned; [now apply Aligned_RawWhere|].
  now intros q.
Qed.

Lemma AlignedUpdate_Where (field : DBField) (operation : DBOperation)
      (ps : list any) :
  placeholders field = 0 -> placeholders operation = 0 ->
  AlignedUpdate (Where field operation ps).
Proof.
  intros Hf Ho. apply AlignedUpdate_of_Aligned; [now apply Aligned_Where|].
  intros q. now rewrite Where_RawWhere.
Qed.

Lemma AlignedUpdate_Raw (text : string) (ps : list any) :
  placeholders text = List.length ps -> AlignedUpdate (Raw text ps).
Proof.
  intros H. apply AlignedUpdate_of_Aligned; [now apply Aligned_Raw|].
  now intros q.
Qed.

Lemma AlignedUpdate_Limit (limit : Z) : AlignedUpdate (Limit limit).
Proof.
  apply AlignedUpdate_of_Aligned; [apply Aligned_Limit | now intros q].
Qed.

Lemma AlignedUpdate_First : AlignedUpdate First.
Proof.
  apply AlignedUpdate_of_Aligned; [apply Aligned_First | now intros q].
Qed.

Lemma AlignedUpdate_OrderBy (field : DBField) (order : OrderByType) :
  placeholders field = 0 -> placeholders order = 0 ->
  AlignedUpdate (OrderBy field order).
Proof.
  intros Hf Ho.
  apply AlignedUpdate_of_Aligned; [now apply Aligned_OrderBy | now intros q].
Qed.

Lemma AlignedUpdate_Join (table : DBTable) (joinType : JoinType)
      (on equal : DBField) :
  placeholders table = 0 -> placeholders joinType = 0 ->
  placeholders on = 0 -> placeholders equal = 0 ->
  AlignedUpdate (Join table joinType on equal).
Proof.
  intros Ht Hjt Hon Heq.
  apply AlignedUpdate_of_Aligned; [now apply Aligned_Join|].
  intros q. now rewrite Join_fields.
Qed.

Lemma AlignedUpdate_Set (field : DBField) (value : any) :
  placeholders field = 0 -> AlignedUpdate (Set_ field value).
Proof.
  intros Hf q (Hb & Hl & Hp). split; [exact Hb|].
  rewrite Set_fields. unfold setsBalanced. cbn [sets setParams].
  rewrite !length_app, placeholders_in_snoc. cbn [List.length]. lia.
Qed.

Lemma AlignedUpdate_applyOpts (opts : list QueryBuilderOption) :
  Forall AlignedUpdate opts ->
  forall q, balanced q /\ setsBalanced q ->
            balanced (applyOpts opts q) /\ setsBalanced (applyOpts opts q).
Proof.
  induction 1 as [|o opts Ho _ IH]; intros q Hq; [exact Hq|].
  rewrite applyOpts_cons. apply IH, Ho, Hq.
Qed.

Lemma AlignedUpdate_And (opts : list QueryBuilderOption) :
  Forall AlignedUpdate opts -> AlignedUpdate (And opts).
Proof. intros H q Hq. now apply (AlignedUpdate_applyOpts opts). Qed.

Lemma AlignedUpdate_Or (opts : list QueryBuilderOption) :
  Forall AlignedUpdate opts -> AlignedUpdate (Or opts).
Proof.
  intros H.
  destruct (AlignedUpdate_applyOpts opts H zeroQuery) as ((Hw & _) & _).
  { split; [apply balanced_zeroQuery | now split]. }
  intros q Hq. rewrite Or_RawWhere.
  apply AlignedUpdate_RawWhere; [|exact Hq].
  now rewrite placeholders_concat by reflexivity.
Qed.

(** X13: when the entity name carries no [?] and every contributor
    keeps placeholders and arguments aligned, assignments included, the
    text of a mutation holds exactly as many [?] as the mutation returns
    arguments. *)
Theorem NewUpdate_arguments_aligned :
  forall (table : DBTable) (opts : list QueryBuilderOption),
    placeholders table = 0 ->
    Forall AlignedUpdate opts ->
    placeholders (fst (NewUpdate table opts))
    = List.length (snd (NewUpdate table opts)).
Proof.
  intros table opts Ht Hopts.
  destruct (AlignedUpdate_applyOpts opts Hopts (newQuery table))
    as ((Hw & Ha & Hj) & Hl & Hp).
  { split; [apply balanced_newQuery | now split]. }
  rewrite NewUpdate_render. cbn [fst snd].
  rewrite !placeholders_append.
  rewrite placeholders_concat by reflexivity.
  rewrite placeholders_whereClause, placeholders_trailingClause.
  rewrite Ht, Hj, Ha, Hw, !length_app, <- Hl.
  assert (Hs : placeholders
                 (setClause table (sets (applyOpts opts (newQuery table))))
               = List.length (sets (applyOpts opts (newQuery table)))).
  { apply placeholders_in_zero in Hp. revert Hp.
    generalize (sets (applyOpts opts (newQuery table))) as l.
    intros l Hl0. destruct l as [|w l]; [reflexivity|].
    unfold setClause. rewrite placeholders_append.
    rewrite placeholders_concat by reflexivity.
    rewrite (placeholders_in_map
               (fun w => Replace w (table ++ ".") "" 1 ++ " = ?") 1).
    - cbn. lia.
    - revert Hl0. apply Forall_impl. intros x Hx.
      rewrite placeholders_append.
      unfold Replace. rewrite placeholders_replace_from by exact Hx.
      reflexivity. }
  rewrite Hs. cbn. lia.
Qed.

Lemma NewUpdate_arguments_aligned_witness :
  let opts :=
    [Where "users.id" In [AnyInt 1; AnyInt 2];
     Set_ "users.name" (AnyString "bla");
     Limit 5;
     Or [Where "users.age" LessThan [AnyInt 30]; RawWhere "users.vip" []];
     And [Set_ "status" (AnyBool true);
          Join "products" LeftJoin "users.id" "products.user_id"]] in
  NewUpdate "users" opts
  = ("UPDATE users SET name = ?, status = ? LEFT JOIN products ON users.id = products.user_id WHERE users.id IN (?,?) AND users.age < ? OR users.vip LIMIT ?",
     [AnyString "bla"; AnyBool true; AnyInt 1; AnyInt 2; AnyInt 30; AnyInt 5])
  /\ placeholders (fst (NewUpdate "users" opts))
     = List.length (snd (NewUpdate "users" opts)).
Proof.
  intros opts. split; [reflexivity|].
  apply (NewUpdate_arguments_aligned "users" opts eq_refl).
  subst opts.
  repeat first
         [ apply Forall_nil
         | apply Forall_cons
         | apply AlignedUpdate_Where; reflexivity
         | apply AlignedUpdate_Set; reflexivity
         | apply AlignedUpdate_Limit
         | apply AlignedUpdate_Or
         | apply AlignedUpdate_And
         | apply AlignedUpdate_RawWhere; reflexivity
         | apply AlignedUpdate_Join; reflexivity ].
Defined.

(** ** The helpers of the test file *)

Lemma store_at_length {A : Type} (pre : list A) (v x : A) (rest : list A) :
  store (List.length pre) v (pre ++ x :: rest) = (pre ++ v :: rest)%list.
Proof.
  induction pre as [|p pre IH]; [reflexivity|].
  cbn [List.length app store]. now rewrite IH.
Qed.

Lemma range_from_toAnySlice {T : Type} (inj : T -> any) :
  forall (s : list T) (pre : list any),
    range_from (fun i v result => store i (inj v) result)
               (List.length pre) s
               (pre ++ repeat AnyNil (List.length s))%list
    = (pre ++ map inj s)%list.
Proof.
  induction s as [|x s IH]; intros pre; [reflexivity|].
  rewrite range_from_cons. cbn [List.length repeat map].
  rewrite store_at_length.
  replace (List.length pre + 1) with (List.length (pre ++ [inj x])%list)
    by (rewrite length_app; reflexivity).
  change (pre ++ inj x :: repeat AnyNil (List.length s))%list
    with (pre ++ [inj x] ++ repeat AnyNil (List.length s))%list.
  rewrite app_assoc, IH, <- app_assoc. reflexivity.
Qed.

(** X14: [toAnySlice] boxes every element in place: the result has the
    length of the input and holds the inputs in order, none left nil.
    Handed to a predicate, the values come back as the arguments. *)
Theorem toAnySlice_boxes_in_order :
  forall (T : Type) (inj : T -> any) (s : list T),
    toAnySlice inj s = map inj s
    /\ List.length (toAnySlice inj s) = List.length s
    /\ (forall table fields field operation,
           snd (NewQuery table fields
                         [Where field operation (toAnySlice inj s)])
           = map inj s).
Proof.
  intros T inj s.
  assert (H : toAnySlice inj s = map inj s).
  { unfold toAnySlice, range. cbv zeta.
    apply (range_from_toAnySlice inj s []). }
  split; [exact H|]. split; [rewrite H; apply length_map|].
  intros table fs field operation. rewrite H, NewQuery_render.
  cbn [snd]. rewrite applyOpts_cons, applyOpts_nil, Where_RawWhere.
  reflexivity.
Qed.

(** X15: the test helper [userWithID] is the predicate [users.id = ?]
    with the id as its value.  The helper [setUserName] names the
    assignment but files its value with the predicate arguments, so with
    the two helpers the mutation returns the values in call order, whereas
    with [Set] the assigned value comes first in either order. *)
Theorem test_helpers_behaviour :
  forall (id : Z) (name : string),
    (forall q, userWithID id q = Where "users.id" Equal [AnyInt id] q)
    /\ NewUpdate "users" [setUserName name; userWithID id]
       = ("UPDATE users SET name = ? WHERE users.id = ?",
          [AnyString name; AnyInt id])
    /\ NewUpdate "users" [userWithID id; setUserName name]
       = ("UPDATE users SET name = ? WHERE users.id = ?",
          [AnyInt id; AnyString name])
    /\ NewUpdate "users" [userWithID id; Set_ "name" (AnyString name)]
       = ("UPDATE users SET name = ? WHERE users.id = ?",
          [AnyString name; AnyInt id])
    /\ NewUpdate "users" [Set_ "name" (AnyString name); userWithID id]
       = ("UPDATE users SET name = ? WHERE users.id = ?",
          [AnyString name; AnyInt id])
    /\ NewQuery "users" ["users.id"] [userWithID id]
       = ("SELECT users.id FROM users WHERE users.id = ?", [AnyInt id])
    /\ NewDelete "users" [userWithID id]
       = ("DELETE FROM users WHERE users.id = ?", [AnyInt id]).
Proof.
  intros id name.
  split; [intros q; now rewrite Where_RawWhere|].
  repeat (split; [reflexivity|]). reflexivity.
Qed.

(** ** Sequences of trailing clauses and of joins *)

Lemma applyOpts_rawOf (l : list (string * list any)) (q : Query) :
  applyOpts (map rawOf l) q
  = mkQuery (Table q) (fields q) (where_ q) (params q) (join q)
            (aggregations q ++ map fst l)
            (aggregationParams q ++ flat_map snd l)
            (sets q) (setParams q).
Proof.
  revert q. induction l as [|p l IH]; intros q.
  - cbn [map flat_map]. rewrite applyOpts_nil, !app_nil_r. now destruct q.
  - cbn [map flat_map]. rewrite applyOpts_cons, IH.
    change (rawOf p q) with (Raw (fst p) (snd p) q). rewrite Raw_fields.
    cbn [Table fields where_ params join aggregations aggregationParams
               sets setParams].
    now rewrite <- !app_assoc.
Qed.

Lemma applyOpts_joinOf (l : list (DBTable * JoinType * DBField * DBField))
      (q : Query) :
  applyOpts (map joinOf l) q
  = mkQuery (Table q) (fields q) (where_ q) (params q)
            (join q ++ map joinFragmentOf l)
            (aggregations q) (aggregationParams q) (sets q) (setParams q).
Proof.
  revert q. induction l as [|[[[t jt] on] eq] l IH]; intros q.
  - cbn [map]. rewrite applyOpts_nil, !app_nil_r. now destruct q.
  - cbn [map]. rewrite applyOpts_cons, IH.
    change (joinOf (t, jt, on, eq) q) with (Join t jt on eq q).
    rewrite Join_fields.
    cbn [Table fields where_ params join aggregations aggregationParams
               sets setParams joinFragmentOf].
    now rewrite <- !app_assoc.
Qed.

(** X16: trailing clauses are rendered in call order, separated by
    single spaces, nothing reordered.  Their values come back, in order,
    from a mutation, and not at all from a retrieval or a removal.
    [OrderBy] and [First] are the raw clauses [ORDER BY field order] and
    [LIMIT 1] without values, [Limit] the raw clause [LIMIT ?] with the
    limit. *)
Theorem trailing_clauses_in_call_order :
  forall (table : DBTable) (fields : list DBField)
         (l : list (string * list any)),
    NewQuery table fields (map rawOf l)
    = ("SELECT " ++ fieldList fields ++ " FROM " ++ table
         ++ match l with [] => "" | _ => " " ++ concat " " (map fst l) end,
       [])
    /\ NewDelete table (map rawOf l)
       = ("DELETE FROM " ++ table
            ++ match l with [] => "" | _ => " " ++ concat " " (map fst l) end,
          [])
    /\ NewUpdate table (map rawOf l)
       = ("UPDATE " ++ table ++ " SET"
            ++ match l with [] => "" | _ => " " ++ concat " " (map fst l) end,
          flat_map snd l)
    /\ (forall field order q,
           OrderBy field order q
           = Raw ("ORDER BY " ++ field ++ " " ++ order) [] q)
    /\ (forall q, First q = Raw "LIMIT 1" [] q)
    /\ (forall limit q, Limit limit q = Raw "LIMIT ?" [AnyInt limit] q).
Proof.
  intros table fs l.
  assert (Ht : trailingClause (map fst l)
               = match l with
                 | [] => ""
                 | _ => " " ++ concat " " (map fst l)
                 end) by (destruct l; reflexivity).
  split; [|split; [|split; [|split; [|split]]]].
  - rewrite NewQuery_render, applyOpts_rawOf.
    cbn [join where_ aggregations params newQuery app concat whereClause].
    rewrite Ht. reflexivity.
  - rewrite NewDelete_render, applyOpts_rawOf.
    cbn [join where_ aggregations params newQuery app concat whereClause].
    rewrite Ht. reflexivity.
  - rewrite NewUpdate_render, applyOpts_rawOf.
    cbn [join where_ aggregations params sets setParams aggregationParams
              newQuery app concat whereClause setClause].
    rewrite Ht. reflexivity.
  - apply OrderBy_Raw.
  - apply First_Raw.
  - reflexivity.
Qed.

(** X17: joins are rendered in call order directly behind the entity,
    one after the other without a separator of their own, and bring no
    argument. *)
Theorem joins_in_call_order :
  forall (table : DBTable) (fields : list DBField)
         (l : list (DBTable * JoinType * DBField * DBField)),
    NewQuery table fields (map joinOf l)
    = ("SELECT " ++ fieldList fields ++ " FROM " ++ table
         ++ concat "" (map joinFragmentOf l), [])
    /\ NewDelete table (map joinOf l)
       = ("DELETE FROM " ++ table ++ concat "" (map joinFragmentOf l), [])
    /\ NewUpdate table (map joinOf l)
       = ("UPDATE " ++ table ++ " SET" ++ concat "" (map joinFragmentOf l),
          []).
Proof.
  intros table fs l. split; [|split].
  - rewrite NewQuery_render, applyOpts_joinOf.
    cbn [join where_ aggregations params newQuery app whereClause
              trailingClause].
    now rewrite !append_nil_right.
  - rewrite NewDelete_render, applyOpts_joinOf.
    cbn [join where_ aggregations params newQuery app whereClause
              trailingClause].
    now rewrite !append_nil_right.
  - rewrite NewUpdate_render, applyOpts_joinOf.
    cbn [join where_ aggregations params sets setParams aggregationParams
              newQuery app whereClause trailingClause setClause].
    now rewrite !append_nil_right.
Qed.

(** ** The arguments a retrieval and a removal return *)

(** C1: the retrieval and the removal are to return the predicate
    arguments followed by the trailing arguments, one per [?] of the text.
    They collect exactly that sequence and then return the predicate
    arguments alone: with [Limit 1] and [OrderBy users.id DESC] the text
    holds one [?], the collected sequence is [[1]], and the returned
    sequence is empty.  The mutation, which collects the same way, returns
    what it collected. *)
Theorem NewQuery_NewDelete_drop_trailing_arguments :
  NewQuery "users" [] [Limit 1; OrderBy "users.id" Desc]
  = ("SELECT * FROM users LIMIT ? ORDER BY users.id DESC", [])
  /\ (let q := applyOpts [Limit 1; OrderBy "users.id" Desc] (newQuery "users") in
      (params q ++ aggregationParams q)%list = [AnyInt 1])
  /\ placeholders (fst (NewQuery "users" [] [Limit 1; OrderBy "users.id" Desc]))
     = 1
  /\ List.length (snd (NewQuery "users" [] [Limit 1; OrderBy "users.id" Desc]))
     = 0
  /\ NewDelete "users" [Where "users.id" Equal [AnyInt 7]; Limit 1]
     = ("DELETE FROM users WHERE users.id = ? LIMIT ?", [AnyInt 7])
  /\ NewUpdate "users" [Limit 1; OrderBy "users.id" Desc]
     = ("UPDATE users SET LIMIT ? ORDER BY users.id DESC", [AnyInt 1])
  /\ (forall table fields opts,
         let q := applyOpts opts (newQuery table) in
         snd (NewQuery table fields opts) = params q
         /\ snd (NewDelete table opts) = params q
         /\ snd (NewUpdate table opts)
            = (setParams q ++ params q ++ aggregationParams q)%list)
  /\ (forall table fields opts limit,
         snd (NewQuery table fields (opts ++ [Limit limit]))
         = snd (NewQuery table fields opts)
         /\ snd (NewDelete table (opts ++ [Limit limit]))
            = snd (NewDelete table opts)
         /\ snd (NewUpdate table (opts ++ [Limit limit]))
            = (snd (NewUpdate table opts) ++ [AnyInt limit])%list).
Proof.
  repeat (split; [reflexivity|]).
  split.
  - intros table fs opts q. subst q.
    rewrite NewQuery_render, NewDelete_render, NewUpdate_render.
    repeat split.
  - intros table fs opts limit.
    rewrite !NewQuery_render, !NewDelete_render, !NewUpdate_render.
    rewrite applyOpts_snoc. cbn [snd].
    change (Limit limit (applyOpts opts (newQuery table)))
      with (Raw "LIMIT ?" [AnyInt limit] (applyOpts opts (newQuery table))).
    rewrite Raw_fields. cbn [params setParams aggregationParams].
    split; [reflexivity | split; [reflexivity|]].
    now rewrite <- !app_assoc.
Qed.

(** ** The assignments of a mutation *)

(** C4, as the specification states it, fails: an assigned name is not
    emitted as it was given, nor with a leading qualifier taken off, but
    with the first [users.] removed wherever it occurs in the name. *)
Lemma NewUpdate_strips_inside_names :
  NewUpdate "users" [Set_ "superusers.id" (AnyInt 7);
                     Where "users.id" Equal [AnyInt 2]]
  = ("UPDATE users SET superid = ? WHERE users.id = ?", [AnyInt 7; AnyInt 2])
  /\ NewUpdate_spec "users" [Set_ "superusers.id" (AnyInt 7);
                             Where "users.id" Equal [AnyInt 2]]
     = ("UPDATE users SET superusers.id = ? WHERE users.id = ?",
        [AnyInt 7; AnyInt 2])
  /\ NewUpdate "users" [Set_ "superusers.id" (AnyInt 7);
                        Where "users.id" Equal [AnyInt 2]]
     <> NewUpdate_spec "users" [Set_ "superusers.id" (AnyInt 7);
                                Where "users.id" Equal [AnyInt 2]]
  /\ fst (NewUpdate "users" [Set_ "users.name" (AnyString "bla")])
     = "UPDATE users SET name = ?"
  /\ fst (NewUpdate "users" [Set_ "users.name" (AnyString "bla")])
     <> "UPDATE users SET users.name = ?".
Proof.
  split; [reflexivity|]. split; [reflexivity|].
  split; [discriminate|]. split; [reflexivity | discriminate].
Qed.

(** C4, amended: a mutation renders [UPDATE], the entity and [SET], the
    assignments [name = ?] separated by a comma and a space, each name
    being the assigned field with the first occurrence of [table.] removed
    (so that a leading qualifier is taken off once, whatever follows it),
    then the join fragments, the predicate fragments joined by [ AND ]
    after [WHERE] when there are any, and the trailing fragments; its
    arguments are the assignment arguments, then the predicate arguments,
    then the trailing arguments. *)
Theorem NewUpdate_clause_and_argument_order :
  forall (table : DBTable) (opts : list QueryBuilderOption),
    let q := applyOpts opts (newQuery table) in
    NewUpdate table opts
    = ("UPDATE " ++ table ++ " SET"
         ++ match sets q with
            | [] => ""
            | _ =>
                " " ++ concat ", "
                  (map (fun w => Replace w (table ++ ".") "" 1 ++ " = ?")
                       (sets q))
            end
         ++ concat "" (join q)
         ++ match where_ q with
            | [] => ""
            | _ => " WHERE " ++ concat " AND " (where_ q)
            end
         ++ match aggregations q with
            | [] => ""
            | _ => " " ++ concat " " (aggregations q)
            end,
       (setParams q ++ params q ++ aggregationParams q)%list)
    /\ (forall f, Replace (table ++ "." ++ f) (table ++ ".") "" 1 = f)
    /\ NewUpdate "users" [Set_ "name" (AnyString "bla");
                          Where "users.id" Equal [AnyInt 2]]
       = ("UPDATE users SET name = ? WHERE users.id = ?",
          [AnyString "bla"; AnyInt 2])
    /\ NewUpdate "users" [Limit 5; Where "users.id" Equal [AnyInt 2];
                          Set_ "users.name" (AnyString "bla");
                          Join "products" LeftJoin "users.id" "products.user_id";
                          Set_ "status" (AnyBool true)]
       = ("UPDATE users SET name = ?, status = ? LEFT JOIN products ON users.id = products.user_id WHERE users.id = ? LIMIT ?",
          [AnyString "bla"; AnyBool true; AnyInt 2; AnyInt 5]).
Proof.
  intros table opts q. subst q.
  split; [|split; [|split]].
  - rewrite NewUpdate_render. reflexivity.
  - apply Replace_qualified_once.
  - reflexivity.
  - reflexivity.
Qed.
